(** * MonoNote: the block editor, the page store and the link resolver

    A shallow embedding of [editor.js] (the [Editor] object), of the page
    part of [storage.js] (the [Storage] object), of the link resolver of
    [linking.js] and of the entry points of [app.js], [voice.js] and
    [llm.js] that change the editor, followed by the properties of the
    block document model that the specification states.

    Conventions.
    - A JavaScript string is the list of its UTF-16 code units.
    - A JavaScript number used as an index is an integer of [Z].
    - The [Editor] singleton, [App.currentPageId], the stored pages, the
      browser's timer queue, and the clock and random generator that
      [Storage.generateId] reads are the fields of one [State] record that
      every method takes and returns.
    - The stored pages are the properties of a plain object. Under a name
      for which it has no property of its own, [pages[id]] finds what every
      object inherits from [Object.prototype]. The built-in objects are
      taken as the engine provides them: when a call gives one of them a
      property, the calls that follow are not told.
    - A method that can raise a [TypeError] returns an [Outcome], or a
      [Storage.Result].
    - The methods write the DOM and read nothing back from it but the
      textarea's text and cursor, which the handlers take as arguments; the
      DOM itself is left out. *)

From Stdlib Require Import ZArith NArith Lia String Ascii Sorted.
From stdpp Require Import base tactics option list.

Local Open Scope Z_scope.

(** ** JavaScript strings *)

Module JS.

Definition char := N.
Definition jsstring := list char.

(** A string literal of the source, as code units. *)
Definition lit (s : string) : jsstring :=
  map N_of_ascii (list_ascii_of_string s).

Definition LF : char := 10%N.

(** The code units [String.prototype.trim] removes: ECMAScript WhiteSpace
    and LineTerminator. *)
Definition isWhiteSpace (c : char) : bool :=
  (  (9 <=? c) && (c <=? 13)
  || (c =? 32) || (c =? 160) || (c =? 5760)
  || (8192 <=? c) && (c <=? 8202)
  || (c =? 8232) || (c =? 8233) || (c =? 8239) || (c =? 8287)
  || (c =? 12288) || (c =? 65279))%N.

Fixpoint trimStart (s : jsstring) : jsstring :=
  match s with
  | [] => []
  | c :: s' => if isWhiteSpace c then trimStart s' else s
  end.

Definition trimEnd (s : jsstring) : jsstring := rev (trimStart (rev s)).

Definition trim (s : jsstring) : jsstring := trimEnd (trimStart s).

(** [s.split('\n')]: never the empty array. *)
Fixpoint split (s : jsstring) : list jsstring :=
  match s with
  | [] => [[]]
  | c :: s' =>
      if (c =? LF)%N then [] :: split s'
      else match split s' with
           | l :: ls => (c :: l) :: ls
           | [] => [[c]]
           end
  end.

(** [xs.join(sep)]. *)
Fixpoint join (sep : jsstring) (xs : list jsstring) : jsstring :=
  match xs with
  | [] => []
  | [x] => x
  | x :: xs' => x ++ sep ++ join sep xs'
  end.

Definition eqb (a b : jsstring) : bool := bool_decide (a = b).

(** Truthiness of a string: only the empty string is falsy. *)
Definition truthy (s : jsstring) : bool :=
  match s with [] => false | _ => true end.

(** [s.substring(0, n)] and [s.substring(n)] for [0 <= n]. *)
Definition substring_to (n : nat) (s : jsstring) : jsstring := take n s.
Definition substring_from (n : nat) (s : jsstring) : jsstring := drop n s.

(** [arr.splice(start, 0, x)] and [arr.splice(start, 1)]: a negative
    [start] counts from the end, and the position is clamped to the
    array. *)
Definition spliceStart {A} (start : Z) (l : list A) : nat :=
  let len := Z.of_nat (length l) in
  Z.to_nat (if start <? 0 then Z.max (len + start) 0 else Z.min start len).

Definition spliceInsert {A} (start : Z) (x : A) (l : list A) : list A :=
  let k := spliceStart start l in take k l ++ x :: drop k l.

Definition spliceRemove {A} (start : Z) (l : list A) : list A :=
  delete (spliceStart start l) l.

(** [l[i]] for an integer [i]: [undefined] out of range. *)
Definition nth_Z {A} (i : Z) (l : list A) : option A :=
  if i <? 0 then None else l !! Z.to_nat i.

(** [l[i].f = v] on an element that exists. *)
Definition alter_Z {A} (f : A -> A) (i : Z) (l : list A) : list A :=
  if i <? 0 then l else alter f (Z.to_nat i) l.

(** A [Set] of numbers, in insertion order. *)
Definition set_has (x : Z) (s : list Z) : bool := bool_decide (x ∈ s).
Definition set_add (x : Z) (s : list Z) : list Z :=
  if set_has x s then s else s ++ [x].
Definition set_delete (x : Z) (s : list Z) : list Z :=
  filter (fun y => y <> x) s.

(** [arr.sort((a, b) => b - a)]: descending order. *)
Fixpoint insert_desc (x : Z) (l : list Z) : list Z :=
  match l with
  | [] => [x]
  | y :: l' => if y <? x then x :: l else y :: insert_desc x l'
  end.

Definition sort_desc (l : list Z) : list Z := foldr insert_desc [] l.

(** Strictly descending: what the sort leaves of distinct numbers. *)
Definition descending : list Z -> Prop := StronglySorted (fun a b => b < a).

(** [s.startsWith(p)]. *)
Fixpoint startsWith (s p : jsstring) : bool :=
  match p, s with
  | [], _ => true
  | _ :: _, [] => false
  | c :: p', d :: s' => (c =? d)%N && startsWith s' p'
  end.

(** [s.includes(sub)]. *)
Fixpoint includes (s sub : jsstring) : bool :=
  startsWith s sub
  || match s with
     | [] => false
     | _ :: s' => includes s' sub
     end.

End JS.

Import JS.

(** ** storage.js: the page store *)

Module Storage.

(** A stored page. Of the fields of a page, the editor and the link
    resolver read [id], [title] and [content]. *)
Record Page := mkPage {
  id : jsstring;
  title : jsstring;
  content : jsstring
}.

(** The object parsed from [localStorage]: the properties it has of its
    own, one per page, keyed by the page's id, in property order. *)
Definition Pages := list Page.

(** [Object.values(pages)]. *)
Definition values (pages : Pages) : list Page := pages.

(** The functions every object inherits from [Object.prototype]. *)
Definition inheritedFunctions : list jsstring :=
  map lit
    [ "constructor"; "hasOwnProperty"; "isPrototypeOf";
      "propertyIsEnumerable"; "toLocaleString"; "toString"; "valueOf";
      "__defineGetter__"; "__defineSetter__"; "__lookupGetter__";
      "__lookupSetter__" ]%string.

(** The accessor every object inherits: its value is [Object.prototype]. *)
Definition protoKey : jsstring := lit "__proto__".

(** The names under which an object finds an inherited member. *)
Definition isInherited (key : jsstring) : bool :=
  JS.eqb key protoKey || bool_decide (key ∈ inheritedFunctions).

(** What [pages[id]] finds: a page, a property of [pages] itself, or a
    member that [pages] inherits. *)
Inductive Value :=
| PageObject (page : Page)
| InheritedFunction (name : jsstring)
| ObjectPrototype.

(** The property [pages] itself has under the key [pid]. *)
Definition own (pid : jsstring) (pages : Pages) : option Page :=
  find (fun p => JS.eqb (id p) pid) pages.

(** [pages[id] || null]: a property of [pages] itself comes before an
    inherited member of the same name, and whatever is found is an object
    or a function, which is truthy. *)
Definition getPage (pid : jsstring) (pages : Pages) : option Value :=
  match own pid pages with
  | Some page => Some (PageObject page)
  | None =>
      if JS.eqb pid protoKey then Some ObjectPrototype
      else if bool_decide (pid ∈ inheritedFunctions)
           then Some (InheritedFunction pid)
           else None
  end.

(** [String(page.content)] for what [getPage] found: an inherited member
    has no content, and [undefined] reads as the text "undefined". *)
Definition contentText (found : Value) : jsstring :=
  match found with
  | PageObject page => content page
  | _ => lit "undefined"
  end.

(** [generateId]: the two strings are [Date.now().toString(36)] and
    [Math.random().toString(36).substr(2, 9)]. *)
Definition generateId (stamp random : jsstring) : jsstring :=
  lit "id_" ++ stamp ++ lit "_" ++ random.

(** The keys that are array indices: the decimal numerals, without a
    leading zero, of the integers below 2^32 - 1. The properties under such
    keys come first in property order, by ascending index; the others
    follow in the order of their creation. *)
Definition isDigit (c : char) : bool := ((48 <=? c) && (c <=? 57))%N.

Definition digitsValue (s : jsstring) : N :=
  foldl (fun n c => (10 * n + (c - 48))%N) 0%N s.

Definition arrayIndex (key : jsstring) : option N :=
  match key with
  | [] => None
  | c :: rest =>
      if forallb isDigit key
         && (negb (c =? 48)%N || negb (truthy rest))
         && (digitsValue key <? 4294967295)%N
      then Some (digitsValue key) else None
  end.

(** A new property under the array index [n]. *)
Fixpoint addIndexed (n : N) (page : Page) (pages : Pages) : Pages :=
  match pages with
  | [] => [page]
  | p :: ps =>
      match arrayIndex (id p) with
      | Some m => if (m <? n)%N then p :: addIndexed n page ps
                  else page :: pages
      | None => page :: pages
      end
  end.

(** A new property of [pages]. *)
Definition addProperty (page : Page) (pages : Pages) : Pages :=
  match arrayIndex (id page) with
  | Some n => addIndexed n page pages
  | None => pages ++ [page]
  end.

(** A new value for a property [pages] has: the property keeps its
    place. *)
Fixpoint replaceProperty (page : Page) (pages : Pages) : Pages :=
  match pages with
  | [] => []
  | p :: ps =>
      if JS.eqb (id p) (id page) then page :: ps
      else p :: replaceProperty page ps
  end.

Definition hasOwn (key : jsstring) (pages : Pages) : bool :=
  match own key pages with Some _ => true | None => false end.

(** [pages[page.id] = page] for an object [page], as the store holds it
    once [pages] is written back. The assignment to [__proto__] on an
    object without such a property of its own goes to the inherited
    accessor: it sets the prototype of [pages] and adds no property. *)
Definition setProperty (page : Page) (pages : Pages) : Pages :=
  if hasOwn (id page) pages then replaceProperty page pages
  else if JS.eqb (id page) protoKey then pages
  else addProperty page pages.

(** [delete pages[key]]; also [pages[key] = f] for a function [f], as the
    store holds it once [pages] is written back, because [JSON.stringify]
    leaves a property out whose value is a function. *)
Definition removeProperty (key : jsstring) (pages : Pages) : Pages :=
  List.filter (fun p => negb (JS.eqb (id p) key)) pages.

(** How [JSON.stringify] treats the object [savePage] is given: an object
    is written with its fields ([Object.prototype] with the ones it has
    been given), a function is left out. *)
Inductive Kind := AnObject | AFunction.

Definition kindOf (found : Value) : Kind :=
  match found with
  | InheritedFunction _ => AFunction
  | _ => AnObject
  end.

(** [found.id], empty for an object without an id. *)
Definition idOf (found : Value) : jsstring :=
  match found with
  | PageObject page => id page
  | _ => []
  end.

(** [savePage(page)]: [page] holds the id, the title and the content of
    the object, with an empty [id] when the object has none, and
    [freshId] is what [generateId] returns when it is called. The result
    is the object returned and the store. *)
Definition savePage (freshId : jsstring) (kind : Kind) (page : Page)
    (pages : Pages) : Page * Pages :=
  let page :=
    if truthy (id page) then page
    else mkPage freshId (title page) (content page) in
  (page,
   match kind with
   | AnObject => setProperty page pages
   | AFunction => removeProperty (id page) pages
   end).

(** The characters [escapeRegex] puts a backslash before:
    . * + ? ^ $ { } ( ) | [ ] and the backslash. *)
Definition isRegexSpecial (c : char) : bool :=
  (  (c =? 46) || (c =? 42) || (c =? 43) || (c =? 63) || (c =? 94)
  || (c =? 36) || (c =? 123) || (c =? 125) || (c =? 40) || (c =? 41)
  || (c =? 124) || (c =? 91) || (c =? 93) || (c =? 92))%N.

Fixpoint escapeRegex (s : jsstring) : jsstring :=
  match s with
  | [] => []
  | c :: s' =>
      if isRegexSpecial c then 92%N :: c :: escapeRegex s'
      else c :: escapeRegex s'
  end.

(** What a call leaves behind: the array it returned, or a [TypeError]. *)
Inductive Result :=
| Returns (found : list Page)
| Throws.

Section Backlinks.

(** The regular-expression engine: [regexExec source input from] searches
    [input] from position [from] for the pattern [source] compiled with the
    flags [gi], and gives the position after the match. *)
Variable regexExec : jsstring -> jsstring -> nat -> option nat.

(** The source of the pattern [getBacklinks] compiles. *)
Definition linkPatternSource (targetTitle : jsstring) : jsstring :=
  lit "\[\[" ++ escapeRegex targetTitle ++ lit "\]\]".

(** The [filter] of [getBacklinks]. The pattern has the [g] flag, so
    [test] starts at the pattern's [lastIndex], which a match moves behind
    the match and a failure resets. *)
Fixpoint filterBacklinks (source pageId : jsstring) (lastIndex : nat)
    (ps : list Page) : list Page :=
  match ps with
  | [] => []
  | page :: ps' =>
      if negb (JS.eqb (id page) pageId) then
        match regexExec source (content page) lastIndex with
        | Some e => page :: filterBacklinks source pageId e ps'
        | None => filterBacklinks source pageId 0 ps'
        end
      else filterBacklinks source pageId lastIndex ps'
  end.

(** [getBacklinks]. For an inherited member [targetPage.title] is
    [undefined], and [escapeRegex] calls [replace] on it. *)
Definition getBacklinks (pageId : jsstring) (pages : Pages) : Result :=
  match getPage pageId pages with
  | None => Returns []
  | Some (PageObject targetPage) =>
      Returns
        (filterBacklinks (linkPatternSource (title targetPage)) pageId 0
           (values pages))
  | Some _ => Throws
  end.

End Backlinks.

(** [deletePage]: the store afterwards and the status returned. For an
    inherited member the test succeeds and [delete] finds no property to
    remove. *)
Definition deletePage (pid : jsstring) (pages : Pages) : Pages * bool :=
  match getPage pid pages with
  | Some _ => (removeProperty pid pages, true)
  | None => (pages, false)
  end.

Section Search.

(** [String.prototype.toLowerCase]. *)
Variable toLowerCase : jsstring -> jsstring.

Definition searchPages (query : jsstring) (pages : Pages) : list Page :=
  let lowerQuery := toLowerCase query in
  List.filter
    (fun page =>
       includes (toLowerCase (title page)) lowerQuery
       || includes (toLowerCase (content page)) lowerQuery)
    (values pages).

End Search.

(** The reading of a pattern source that is made of plain characters and
    of special characters behind a backslash: the string it matches, or
    nothing when a special character stands unescaped. *)
Fixpoint literalOf (source : jsstring) : option jsstring :=
  match source with
  | [] => Some []
  | c :: rest =>
      if (c =? 92)%N then
        match rest with
        | d :: rest' =>
            if isRegexSpecial d
            then option_map (cons d) (literalOf rest') else None
        | [] => None
        end
      else if isRegexSpecial c then None
      else option_map (cons c) (literalOf rest)
  end.

End Storage.

(** ** linking.js: the link resolver *)

Module Linking.

Section Resolver.

(** [String.prototype.toLowerCase]. *)
Variable toLowerCase : jsstring -> jsstring.

(** Two titles are the same to the resolver when their lower-cased,
    trimmed forms are equal. *)
Definition sameTitle (a b : jsstring) : Prop :=
  trim (toLowerCase a) = trim (toLowerCase b).

Definition findPageByTitle (t : jsstring) (pages : Storage.Pages)
    : option Storage.Page :=
  let lowerTitle := trim (toLowerCase t) in
  find (fun page =>
          JS.eqb (trim (toLowerCase (Storage.title page))) lowerTitle)
       (Storage.values pages).

(** [getSuggestions]: up to five stored pages whose title holds the query,
    and none for a query of fewer than two code units. *)
Definition getSuggestions (query : jsstring) (pages : Storage.Pages)
    : list Storage.Page :=
  if negb (truthy query) || (length query <? 2)%nat then []
  else
    let lowerQuery := toLowerCase query in
    take 5
      (List.filter
         (fun page => includes (toLowerCase (Storage.title page)) lowerQuery)
         (Storage.values pages)).

(** The longest run of code units other than the closing bracket at the
    start of a string, and what follows it: the group of [linkPattern]. *)
Fixpoint spanName (s : jsstring) : jsstring * jsstring :=
  match s with
  | [] => ([], [])
  | c :: s' =>
      if (c =? 93)%N then ([], s)
      else let (name, rest) := spanName s' in (c :: name, rest)
  end.

(** [linkPattern], two opening brackets, one or more code units other than
    the closing bracket, two closing brackets, matched at the start of a
    string: the group and the length of the match. The group is greedy and
    a shorter one would have to be followed by a closing bracket, so the
    longest run decides. *)
Definition matchLinkAt (s : jsstring) : option (jsstring * nat) :=
  match s with
  | c1 :: c2 :: s' =>
      if ((c1 =? 91) && (c2 =? 91))%N then
        let (name, rest) := spanName s' in
        match name, rest with
        | _ :: _, d1 :: d2 :: _ =>
            if ((d1 =? 93) && (d2 =? 93))%N
            then Some (name, (length name + 4)%nat) else None
        | _, _ => None
        end
      else None
  | _ => None
  end.

(** The groups of the successive matches of [linkPattern], as the loop
    over [regex.exec] finds them: a search resumes behind the last match,
    so the [skip] code units a match covers are passed over. *)
Fixpoint linkNamesFrom (skip : nat) (s : jsstring) : list jsstring :=
  match s with
  | [] => []
  | _ :: s' =>
      match skip with
      | S k => linkNamesFrom k s'
      | O =>
          match matchLinkAt s with
          | Some (name, len) => name :: linkNamesFrom (len - 1) s'
          | None => linkNamesFrom 0 s'
          end
      end
  end.

Definition linkNames (s : jsstring) : list jsstring := linkNamesFrom 0 s.

(** The body of the loop of [getOutgoingLinks] for one match. *)
Definition linkedPage (pageId : jsstring) (pages : Storage.Pages)
    (name : jsstring) : list Storage.Page :=
  match findPageByTitle name pages with
  | Some linked =>
      if negb (JS.eqb (Storage.id linked) pageId) then [linked] else []
  | None => []
  end.

Definition getOutgoingLinks (pageId : jsstring) (pages : Storage.Pages)
    : list Storage.Page :=
  match Storage.getPage pageId pages with
  | None => []
  | Some page =>
      concat
        (map (linkedPage pageId pages) (linkNames (Storage.contentText page)))
  end.

End Resolver.

(** Lower-casing of the ASCII letters, every other code unit kept. *)
Definition asciiLower (s : jsstring) : jsstring :=
  map (fun c => if ((65 <=? c) && (c <=? 90))%N then (c + 32)%N else c) s.

End Linking.

(** ** editor.js: the block editor *)

Module Editor.

Record Block := mkBlock { content : jsstring }.

(** A pending [setTimeout]: its handle and the time it is due. The only
    callback the editor's debounce schedules is [save]. *)
Record Timer := mkTimer { timer_id : positive; timer_due : Z }.

Record State := mkState {
  (* the Editor object *)
  blocks : list Block;
  currentBlockIndex : Z;
  saveTimeout : option positive;
  selectedBlocks : list Z;
  titleInput : jsstring;
  (* App and Storage *)
  currentPageId : option jsstring;
  pages : Storage.Pages;
  (* the objects [save] has passed to [Storage.savePage], as it returned
     them, oldest first *)
  saved : list Storage.Page;
  (* the event loop *)
  now : Z;
  nextTimerId : positive;
  timers : list Timer;
  (* what the clock and [Math.random] give to the calls of
     [Storage.generateId] to come, the next call first *)
  entropy : nat -> jsstring * jsstring
}.

Definition with_blocks (bs : list Block) (w : State) : State :=
  mkState bs (currentBlockIndex w) (saveTimeout w) (selectedBlocks w)
    (titleInput w) (currentPageId w) (pages w) (saved w)
    (now w) (nextTimerId w) (timers w) (entropy w).

Definition with_currentBlockIndex (i : Z) (w : State) : State :=
  mkState (blocks w) i (saveTimeout w) (selectedBlocks w)
    (titleInput w) (currentPageId w) (pages w) (saved w)
    (now w) (nextTimerId w) (timers w) (entropy w).

Definition with_selectedBlocks (s : list Z) (w : State) : State :=
  mkState (blocks w) (currentBlockIndex w) (saveTimeout w) s
    (titleInput w) (currentPageId w) (pages w) (saved w)
    (now w) (nextTimerId w) (timers w) (entropy w).

Definition with_titleInput (t : jsstring) (w : State) : State :=
  mkState (blocks w) (currentBlockIndex w) (saveTimeout w) (selectedBlocks w)
    t (currentPageId w) (pages w) (saved w)
    (now w) (nextTimerId w) (timers w) (entropy w).

Definition with_store (ps : Storage.Pages) (log : list Storage.Page)
    (w : State) : State :=
  mkState (blocks w) (currentBlockIndex w) (saveTimeout w) (selectedBlocks w)
    (titleInput w) (currentPageId w) ps log
    (now w) (nextTimerId w) (timers w) (entropy w).

Definition with_timers (st : option positive) (next : positive)
    (ts : list Timer) (w : State) : State :=
  mkState (blocks w) (currentBlockIndex w) st (selectedBlocks w)
    (titleInput w) (currentPageId w) (pages w) (saved w)
    (now w) next ts (entropy w).

Definition with_now (t : Z) (ts : list Timer) (w : State) : State :=
  mkState (blocks w) (currentBlockIndex w) (saveTimeout w) (selectedBlocks w)
    (titleInput w) (currentPageId w) (pages w) (saved w)
    t (nextTimerId w) ts (entropy w).

Definition with_entropy (e : nat -> jsstring * jsstring) (w : State)
    : State :=
  mkState (blocks w) (currentBlockIndex w) (saveTimeout w) (selectedBlocks w)
    (titleInput w) (currentPageId w) (pages w) (saved w)
    (now w) (nextTimerId w) (timers w) e.

(** What a method call leaves behind: it returned, or it raised a
    [TypeError] by reading a property of [undefined]. *)
Inductive Outcome :=
| Normal (w : State)
| TypeError (w : State).

Definition state_of (o : Outcome) : State :=
  match o with Normal w | TypeError w => w end.

(** Sequencing of calls: an exception skips the rest of the handler. *)
Definition andThen (o : Outcome) (k : State -> Outcome) : Outcome :=
  match o with Normal w => k w | TypeError w => TypeError w end.

Definition setContent (s : jsstring) (b : Block) : Block := mkBlock s.
Definition appendContent (s : jsstring) (b : Block) : Block :=
  mkBlock (content b ++ s).

(** *** Serialization *)

(** [this.blocks.map(b => b.content).join('\n\n')], in [save] and
    [getContent]. *)
Definition serialize (bs : list Block) : jsstring :=
  join [LF; LF] (map content bs).

Definition getContent (w : State) : jsstring := serialize (blocks w).

(** The loop of [loadPage] over the lines that remain; [blockLines] and
    [acc] are the loop's [blockLines] and [this.blocks]. The test
    [i === lines.length - 1] is that no line remains. *)
Fixpoint groupLines (lines blockLines : list jsstring) (acc : list Block)
    : list Block :=
  match lines with
  | [] => acc
  | line :: rest =>
      let blockLines := blockLines ++ [line] in
      let isLast := match rest with [] => true | _ => false end in
      if negb (truthy line) || isLast then
        let blockContent := trim (join [LF] blockLines) in
        let acc :=
          if truthy blockContent || isLast
          then acc ++ [mkBlock blockContent] else acc in
        groupLines rest [] acc
      else groupLines rest blockLines acc
  end.

(** The block list [loadPage] builds from [page.content]. *)
Definition deserialize (text : jsstring) : list Block :=
  let bs := groupLines (split text) [] [] in
  match bs with
  | [] => [mkBlock []]
  | _ => bs
  end.

(** *** Persistence *)

(** [Storage.savePage(page)] on the state: the store, the log, and the
    clock and random readings [generateId] uses up when the object has no
    id. *)
Definition Storage_savePage (kind : Storage.Kind) (page : Storage.Page)
    (w : State) : State :=
  let freshId :=
    Storage.generateId (fst (entropy w 0)) (snd (entropy w 0)) in
  let (written, ps) := Storage.savePage freshId kind page (pages w) in
  let e := if truthy (Storage.id page) then entropy w
           else fun n => entropy w (S n) in
  with_entropy e (with_store ps (saved w ++ [written]) w).

(** [save]. What [getPage] found takes the title and the content and goes
    to [savePage], be it a page or an inherited member. *)
Definition save (w : State) : State :=
  match currentPageId w with
  | None => w
  | Some pid =>
      if negb (truthy pid) then w
      else match Storage.getPage pid (pages w) with
           | None => w
           | Some page =>
               let page' :=
                 Storage.mkPage (Storage.idOf page)
                   (if truthy (titleInput w) then titleInput w
                    else lit "Untitled")
                   (serialize (blocks w)) in
               Storage_savePage (Storage.kindOf page) page' w
           end
  end.

(** [clearTimeout(h)]. *)
Definition clearTimeout (h : positive) (ts : list Timer) : list Timer :=
  filter (fun t => timer_id t <> h) ts.

Definition debouncedSave (w : State) : State :=
  let ts := match saveTimeout w with
            | Some h => clearTimeout h (timers w)
            | None => timers w
            end in
  let h := nextTimerId w in
  with_timers (Some h) (Pos.succ h) (ts ++ [mkTimer h (now w + 500)]) w.

(** The first of the pending timers that are due soonest. *)
Fixpoint earliest (ts : list Timer) : option Timer :=
  match ts with
  | [] => None
  | t :: ts' =>
      match earliest ts' with
      | Some u => if timer_due u <? timer_due t then Some u else Some t
      | None => Some t
      end
  end.

(** The event loop runs the callbacks that are due up to time [t], soonest
    first. A callback ([save]) starts no timer, so [fuel] pending timers
    at the start are all there is to run. *)
Fixpoint fireDue (fuel : nat) (t : Z) (w : State) : State :=
  match fuel with
  | O => w
  | S fuel' =>
      match earliest (timers w) with
      | Some tm =>
          if timer_due tm <=? t then
            fireDue fuel' t
              (save (with_now (Z.max (now w) (timer_due tm))
                              (clearTimeout (timer_id tm) (timers w)) w))
          else w
      | None => w
      end
  end.

(** Time passes until [t]. *)
Definition advance (t : Z) (w : State) : State :=
  let w' := fireDue (length (timers w)) t w in
  with_now (Z.max (now w') t) (timers w') w'.

(** *** Methods *)

(** [loadPage], up to the point where the editor's fields are set: the
    title, the blocks and the selection. What follows ([renderAllBlocks],
    [Voice.loadMemos], [Linking.updateBacklinks]) writes the DOM and
    changes none of them. The last of these calls
    [Storage.getBacklinks(page.id)], and raises when that does; for a page
    that [App.openPage] has found it does not. *)
Definition loadPage (page : Storage.Page) (w : State) : State :=
  with_selectedBlocks []
    (with_blocks (deserialize (Storage.content page))
       (with_titleInput (Storage.title page) w)).

Definition toggleBlockSelection (index : Z) (selected : bool) (w : State)
    : State :=
  with_selectedBlocks
    (if selected then set_add index (selectedBlocks w)
     else set_delete index (selectedBlocks w)) w.

Definition finishEditing (w : State) : State :=
  if currentBlockIndex w <? 0 then w
  else save (with_currentBlockIndex (-1) w).

Definition editBlock (index : Z) (w : State) : State :=
  let w := finishEditing w in
  if (index <? 0) || (index >=? Z.of_nat (length (blocks w))) then w
  else with_currentBlockIndex index w.

Definition addBlock (atIndex : Z) (c : jsstring) (w : State) : State :=
  debouncedSave (with_blocks (spliceInsert atIndex (mkBlock c) (blocks w)) w).

Definition deleteBlock (index : Z) (w : State) : Outcome :=
  if Z.of_nat (length (blocks w)) <=? 1 then
    match blocks w with
    | [] => TypeError w
    | b :: bs => Normal (with_blocks (setContent [] b :: bs) w)
    end
  else Normal (debouncedSave (with_blocks (spliceRemove index (blocks w)) w)).

(** The [forEach] of [deleteSelectedBlocks] over the sorted indices. *)
Fixpoint deleteEach (indices : list Z) (w : State) : Outcome :=
  match indices with
  | [] => Normal w
  | index :: rest =>
      if Z.of_nat (length (blocks w)) >? 1 then
        deleteEach rest (with_blocks (spliceRemove index (blocks w)) w)
      else
        match blocks w with
        | [] => TypeError w
        | b :: bs => deleteEach rest (with_blocks (setContent [] b :: bs) w)
        end
  end.

Definition deleteSelectedBlocks (w : State) : Outcome :=
  match selectedBlocks w with
  | [] => Normal w
  | _ =>
      andThen (deleteEach (sort_desc (selectedBlocks w)) w)
        (fun w => Normal (save (with_selectedBlocks [] w)))
  end.

Definition insertAtCursor (text : jsstring) (w : State) : Outcome :=
  if currentBlockIndex w >=? 0 then
    match nth_Z (currentBlockIndex w) (blocks w) with
    | None => TypeError w
    | Some _ =>
        let w := with_blocks
                   (alter_Z (appendContent text) (currentBlockIndex w)
                      (blocks w)) w in
        let w := finishEditing w in
        let w := editBlock (currentBlockIndex w) w in
        Normal (debouncedSave w)
    end
  else if Z.of_nat (length (blocks w)) >? 0 then
    let lastIndex := Z.of_nat (length (blocks w)) - 1 in
    Normal (debouncedSave
              (with_blocks (alter_Z (appendContent text) lastIndex (blocks w))
                 w))
  else Normal (debouncedSave (addBlock 0 text w)).

(** *** The handlers [editBlock] attaches to the block's textarea

    [index] is the index the handlers close over, [value] and
    [selectionStart] are the textarea's text and cursor at the event; the
    block object the handlers close over is the one at [index]. The [blur]
    listener calls [finishEditing] from a timer of its own while the block
    is still the one being edited: that is the operation [FinishEdit]
    below. *)

Inductive Key := Enter | Backspace | ArrowUp | ArrowDown | Escape | OtherKey.

Record KeyEvent := mkKeyEvent { key : Key; shiftKey : bool }.

Definition isKey (k k' : Key) : bool :=
  match k, k' with
  | Enter, Enter | Backspace, Backspace | ArrowUp, ArrowUp
  | ArrowDown, ArrowDown | Escape, Escape | OtherKey, OtherKey => true
  | _, _ => false
  end.

(** The [input] listener. *)
Definition onInput (index : Z) (value : jsstring) (w : State) : State :=
  debouncedSave (with_blocks (alter_Z (setContent value) index (blocks w)) w).

(** The [keydown] listener. *)
Definition onKeydown (e : KeyEvent) (index : Z) (value : jsstring)
    (selectionStart : nat) (w : State) : Outcome :=
  if isKey (key e) Enter && negb (shiftKey e) then
    let cursorAtEnd := Nat.eqb selectionStart (length value) in
    if cursorAtEnd then
      Normal (editBlock (index + 1) (addBlock (index + 1) [] (finishEditing w)))
    else
      let beforeCursor := substring_to selectionStart value in
      let afterCursor := substring_from selectionStart value in
      let w := with_blocks
                 (alter_Z (setContent beforeCursor) index (blocks w)) w in
      Normal (editBlock (index + 1)
                (addBlock (index + 1) afterCursor (finishEditing w)))
  else if isKey (key e) Backspace && negb (truthy value) && (index >? 0) then
    andThen (deleteBlock index w) (fun w => Normal (editBlock (index - 1) w))
  else if isKey (key e) ArrowUp && Nat.eqb selectionStart 0 then
    if index >? 0 then Normal (editBlock (index - 1) (finishEditing w))
    else Normal w
  else if isKey (key e) ArrowDown && Nat.eqb selectionStart (length value) then
    if index <? Z.of_nat (length (blocks w)) - 1
    then Normal (editBlock (index + 1) (finishEditing w))
    else Normal w
  else if isKey (key e) Escape then Normal (finishEditing w)
  else Normal w.

(** *** Operations of the document model *)

Inductive Op :=
| EditBlock (index : Z)
| FinishEdit
| HandleKey (e : KeyEvent) (index : Z) (value : jsstring) (selectionStart : nat)
| Input (index : Z) (value : jsstring)
| InsertBlock (atIndex : Z) (c : jsstring)
| DeleteBlock (index : Z)
| ToggleSelection (index : Z) (selected : bool)
| DeleteSelected
| InsertAtCursor (text : jsstring)
| Wait (t : Z).

Definition perform (op : Op) (w : State) : Outcome :=
  match op with
  | EditBlock index => Normal (editBlock index w)
  | FinishEdit => Normal (finishEditing w)
  | HandleKey e index value sel => onKeydown e index value sel w
  | Input index value => Normal (onInput index value w)
  | InsertBlock atIndex c => Normal (addBlock atIndex c w)
  | DeleteBlock index => deleteBlock index w
  | ToggleSelection index selected =>
      Normal (toggleBlockSelection index selected w)
  | DeleteSelected => deleteSelectedBlocks w
  | InsertAtCursor text => insertAtCursor text w
  | Wait t => Normal (advance t w)
  end.

(** Events are handled one after the other; a handler that raised leaves
    the state as it was when it raised. *)
Definition run (ops : list Op) (w : State) : State :=
  foldl (fun w op => state_of (perform op w)) w ops.

(** A run of content-edit keystrokes in the textarea of block [index]:
    keystroke [(t, value)] happens at time [t] and leaves [value] in the
    textarea. *)
Definition typeKeys (index : Z) (keys : list (Z * jsstring)) (w : State)
    : State :=
  foldl (fun w k => onInput index (snd k) (advance (fst k) w)) w keys.

(** *** The other entry points of the editor *)

Definition with_currentPageId (p : option jsstring) (w : State) : State :=
  mkState (blocks w) (currentBlockIndex w) (saveTimeout w) (selectedBlocks w)
    (titleInput w) p (pages w) (saved w)
    (now w) (nextTimerId w) (timers w) (entropy w).

(** [clear]. *)
Definition clear (w : State) : State :=
  with_currentBlockIndex (-1) (with_blocks [] (with_titleInput [] w)).

(** The [input] listener of the title: the browser has put [value] in the
    title input. *)
Definition onTitleInput (value : jsstring) (w : State) : State :=
  debouncedSave (with_titleInput value w).

(** The [keydown] listener of the title, for the Enter key. *)
Definition onTitleEnter (w : State) : State :=
  let w := if Nat.eqb (length (blocks w)) 0 then addBlock 0 [] w else w in
  editBlock 0 w.

(** The [click] listener of the placeholder behind the last block. *)
Definition onPlaceholderClick (w : State) : State :=
  let w := addBlock (Z.of_nat (length (blocks w))) [] w in
  editBlock (Z.of_nat (length (blocks w)) - 1) w.

(** The callback the [blur] listener of block [index] sets a timer for. *)
Definition onBlurTimeout (index : Z) (w : State) : State :=
  if currentBlockIndex w =? index then finishEditing w else w.

(** *** Spelled-out results *)

(** The blocks whose index, counted from [i], is not in [sel]. *)
Fixpoint unselected (sel : list Z) (i : Z) (bs : list Block) : list Block :=
  match bs with
  | [] => []
  | b :: bs' =>
      if set_has i sel then unselected sel (i + 1) bs'
      else b :: unselected sel (i + 1) bs'
  end.

(** *** Conditions on states and on runs of keystrokes *)

(** While a page is open the document has a block. *)
Definition openNonempty (w : State) : Prop :=
  currentPageId w = None \/ (1 <= length (blocks w))%nat.

(** At most one timer is pending, and [saveTimeout] holds it. *)
Definition onePending (w : State) : Prop :=
  (length (timers w) <= 1)%nat
  /\ forall tm, tm ∈ timers w -> saveTimeout w = Some (timer_id tm).

Definition nonempty (w : State) : Prop := (1 <= length (blocks w))%nat.

(** Every pending timer is the one [saveTimeout] holds. *)
Definition tracked (w : State) : Prop :=
  forall tm, tm ∈ timers w -> saveTimeout w = Some (timer_id tm).

(** [save] finds the page to write: [App.currentPageId] names a stored
    page. *)
Definition pageOpen (w : State) : Prop :=
  exists pid page,
    currentPageId w = Some pid /\ truthy pid = true
    /\ Storage.getPage pid (pages w) = Some (Storage.PageObject page).

(** The conditions under which the editor works on an open page. *)
Definition operating (w : State) : Prop := tracked w /\ pageOpen w.

(** Each keystroke comes less than 500ms after the one before, which
    happened at time [t]. *)
Fixpoint spaced (t : Z) (keys : list (Z * jsstring)) : Prop :=
  match keys with
  | [] => True
  | k :: keys' => t <= fst k < t + 500 /\ spaced (fst k) keys'
  end.

(** The time of the last keystroke of a run that starts at time [t]. *)
Definition lastTime (t : Z) (keys : list (Z * jsstring)) : Z :=
  foldl (fun _ k => fst k) t keys.

(** After a keystroke at time [t]: one timer is pending, due at [t + 500],
    and [saveTimeout] holds it. *)
Definition scheduled (t : Z) (w : State) : Prop :=
  now w = t
  /\ exists h, timers w = [mkTimer h (t + 500)] /\ saveTimeout w = Some h.

End Editor.

(** ** The conditions of the round-trip property *)

Module RoundTrip.

Import Editor.

Definition startsWithWhiteSpace (s : jsstring) : bool :=
  match s with
  | c :: _ => isWhiteSpace c
  | [] => false
  end.

Definition endsWithWhiteSpace (s : jsstring) : bool :=
  match last s with
  | Some c => isWhiteSpace c
  | None => false
  end.

Fixpoint hasDoubleNewline (s : jsstring) : bool :=
  match s with
  | c :: s' =>
      match s' with
      | d :: _ => ((c =? LF) && (d =? LF))%N || hasDoubleNewline s'
      | [] => false
      end
  | [] => false
  end.

(** A block's content has no leading or trailing whitespace and no two
    consecutive newline characters. *)
Definition safe (b : Block) : bool :=
  negb (startsWithWhiteSpace (content b))
  && negb (endsWithWhiteSpace (content b))
  && negb (hasDoubleNewline (content b)).

(** A line that is not blank. *)
Definition hasText (l : jsstring) : Prop := truthy l = true.

(** A line holds no newline. *)
Definition noLF (l : jsstring) : Prop := LF ∉ l.

(** A block that is safe and has text. *)
Definition normalBlock (b : Block) : Prop :=
  safe b = true /\ hasText (content b).

(** Every block but the last one has text. *)
Fixpoint innerBlocksHaveText (d : list Block) : bool :=
  match d with
  | [] => true
  | b :: d' =>
      match d' with
      | [] => true
      | _ :: _ => truthy (content b) && innerBlocksHaveText d'
      end
  end.

End RoundTrip.

(** ** app.js: opening and closing a page *)

Module App.

Import Editor.

(** [openPage]. Of an inherited member [loadPage] reads a title and a
    content that are [undefined], and takes the empty string for each. *)
Definition openPage (pageId : jsstring) (w : State) : State :=
  match Storage.getPage pageId (pages w) with
  | None => w
  | Some (Storage.PageObject page) =>
      loadPage page (with_currentPageId (Some pageId) w)
  | Some _ =>
      loadPage (Storage.mkPage [] [] []) (with_currentPageId (Some pageId) w)
  end.

Definition closePage (w : State) : State :=
  clear (with_currentPageId None w).

End App.

(** ** linking.js: inserting a link *)

Module LinkInsertion.

Import Editor.

(** The text [insertLink] inserts for a page title. *)
Definition linkText (pageTitle : jsstring) : jsstring :=
  lit "[[" ++ pageTitle ++ lit "]]".

Definition insertLink (pageTitle : jsstring) (w : State) : Outcome :=
  insertAtCursor (linkText pageTitle) w.

End LinkInsertion.

(** ** voice.js: inserting a transcript *)

Module Voice.

Import Editor.

(** The text [insertTranscript] inserts for a transcript. *)
Definition transcriptText (transcript : jsstring) : jsstring :=
  [LF; LF] ++ transcript ++ [LF; LF].

(** [insertTranscript], as far as the editor goes; the voice memo it
    stores afterwards keeps the stored title and content of the page. *)
Definition insertTranscript (currentTranscript : jsstring) (w : State)
    : Outcome :=
  let transcript := trim currentTranscript in
  if truthy transcript
     && negb (JS.eqb transcript (lit "(No speech detected)"))
  then insertAtCursor (transcriptText transcript) w
  else Normal w.

End Voice.

(** ** llm.js: writing a result into the editor *)

Module LLM.

Import Editor.

(** The marker of a summary block; the pencil sign is the surrogate pair
    D83D DCDD. *)
Definition summaryPrefix : jsstring :=
  lit "> **" ++ [55357%N; 56541%N] ++ lit " Summary:**".

Definition summaryBlock (summary : jsstring) : jsstring :=
  summaryPrefix ++ lit " " ++ summary.

Definition insertSummary (summary : jsstring) (w : State) : State :=
  let bs :=
    match blocks w with
    | b :: rest =>
        if startsWith (content b) summaryPrefix
        then mkBlock (summaryBlock summary) :: rest
        else mkBlock (summaryBlock summary) :: b :: rest
    | [] => [mkBlock (summaryBlock summary)]
    end in
  save (with_blocks bs w).

(** [line.trim() !== '']. *)
Definition notBlank (line : jsstring) : bool := truthy (trim line).

(** The loop of [replaceContent]: [acc] and [currentBlock] are the loop's
    [blocks] and [currentBlock]. *)
Fixpoint replaceLoop (lines : list jsstring) (acc : list Block)
    (currentBlock : list jsstring) : list Block * list jsstring :=
  match lines with
  | [] => (acc, currentBlock)
  | line :: rest =>
      if negb (notBlank line) && (0 <? length currentBlock)%nat then
        replaceLoop rest (acc ++ [mkBlock (join [LF] currentBlock)]) []
      else if notBlank line then
        replaceLoop rest acc (currentBlock ++ [line])
      else replaceLoop rest acc currentBlock
  end.

(** The blocks [replaceContent] builds. *)
Definition replaceBlocks (newContent : jsstring) : list Block :=
  let (acc, currentBlock) := replaceLoop (split newContent) [] [] in
  let acc :=
    if (0 <? length currentBlock)%nat
    then acc ++ [mkBlock (join [LF] currentBlock)] else acc in
  if Nat.eqb (length acc) 0 then [mkBlock newContent] else acc.

Definition replaceContent (newContent : jsstring) (w : State) : State :=
  save (with_blocks (replaceBlocks newContent) w).

(** The lines of the block are lines with text on them. *)
Definition linesNotBlank (b : Block) : Prop :=
  Forall (fun l => notBlank l = true) (split (content b)).

End LLM.

(** ** Everything that changes the editor *)

Module Session.

Import Editor.

Inductive Action :=
| Model (op : Op)
| TitleInput (value : jsstring)
| TitleEnter
| PlaceholderClick
| BlurTimeout (index : Z)
| InsertLink (pageTitle : jsstring)
| InsertTranscript (currentTranscript : jsstring)
| InsertSummary (summary : jsstring)
| ReplaceContent (newContent : jsstring)
| OpenPage (pageId : jsstring)
| ClosePage.

Definition act (a : Action) (w : State) : Outcome :=
  match a with
  | Model op => perform op w
  | TitleInput value => Normal (onTitleInput value w)
  | TitleEnter => Normal (onTitleEnter w)
  | PlaceholderClick => Normal (onPlaceholderClick w)
  | BlurTimeout index => Normal (onBlurTimeout index w)
  | InsertLink pageTitle => LinkInsertion.insertLink pageTitle w
  | InsertTranscript t => Voice.insertTranscript t w
  | InsertSummary summary => Normal (LLM.insertSummary summary w)
  | ReplaceContent newContent => Normal (LLM.replaceContent newContent w)
  | OpenPage pageId => Normal (App.openPage pageId w)
  | ClosePage => Normal (App.closePage w)
  end.

Definition session (actions : list Action) (w : State) : State :=
  foldl (fun w a => state_of (act a w)) w actions.

(** The actions that set [App.currentPageId]. *)
Definition changesPage (a : Action) : bool :=
  match a with
  | OpenPage _ | ClosePage => true
  | _ => false
  end.

End Session.

(** ** Concrete documents, states and stores *)

Module Examples.

Import Editor.

Definition doc (l : list string) : list Block :=
  map (fun s => mkBlock (lit s)) l.

(** A stored page that is open, with one empty block being edited. *)
Definition openedPage : State :=
  mkState [mkBlock (lit "")] 0 None [] (lit "Notes")
    (Some (lit "id_1")) [Storage.mkPage (lit "id_1") (lit "Notes") (lit "")] []
    0 1%positive [] (fun _ => (lit "lx2k9f3a", lit "k3j9x0q1z")).

(** The open page with the given blocks; block [i] is being edited, or none
    when [i] is -1. *)
Definition editing (i : Z) (l : list string) : State :=
  with_currentBlockIndex i (with_blocks (doc l) openedPage).

(** Three keystrokes, at 0ms, 200ms and 600ms. *)
Definition threeKeys : list (Z * jsstring) :=
  [(0, lit "a"); (200, lit "ab"); (600, lit "abc")].

Definition fooPage : Storage.Page :=
  Storage.mkPage (lit "id_1") (lit "foo") (lit "").

(** A page whose content links to its own title. *)
Definition selfLinkPage : Storage.Page :=
  Storage.mkPage (lit "id_1") (lit "Home") (lit "see [[Home]]").

(** An engine that finds every pattern where the search starts. *)
Definition alwaysMatch (source input : jsstring) (from : nat) : option nat :=
  Some from.

End Examples.

Import Editor RoundTrip Examples.

(** * Properties *)

(** ** What the persistence layer leaves alone *)

Section Frames.
Implicit Types (w : State).

(** [save] returns early, or replaces the store, extends the log and may
    use up a reading of the clock and of [Math.random]. *)
Lemma save_frame w :
  save w = w
  \/ exists ps log e, save w = with_entropy e (with_store ps log w).
Proof.
  unfold save. destruct (currentPageId w) as [pid|]; [|by left].
  destruct (negb (truthy pid)); [by left|].
  destruct (Storage.getPage pid (pages w)) as [found|]; [|by left].
  right. unfold Storage_savePage.
  destruct (Storage.savePage _ _ _ _) as [written ps]. by do 3 eexists.
Qed.

Lemma save_blocks w : blocks (save w) = blocks w.
Proof. by destruct (save_frame w) as [-> | (? & ? & ? & ->)]. Qed.

Lemma save_currentBlockIndex w :
  currentBlockIndex (save w) = currentBlockIndex w.
Proof. by destruct (save_frame w) as [-> | (? & ? & ? & ->)]. Qed.

Lemma save_selectedBlocks w : selectedBlocks (save w) = selectedBlocks w.
Proof. by destruct (save_frame w) as [-> | (? & ? & ? & ->)]. Qed.

Lemma save_timers w :
  timers (save w) = timers w /\ saveTimeout (save w) = saveTimeout w
  /\ now (save w) = now w.
Proof. by destruct (save_frame w) as [-> | (? & ? & ? & ->)]. Qed.

Lemma debouncedSave_blocks w : blocks (debouncedSave w) = blocks w.
Proof. done. Qed.

Lemma finishEditing_blocks w : blocks (finishEditing w) = blocks w.
Proof.
  unfold finishEditing. destruct (_ <? _); [done|]. by rewrite save_blocks.
Qed.

Lemma editBlock_blocks i w : blocks (editBlock i w) = blocks w.
Proof.
  unfold editBlock. destruct (_ || _); simpl; apply finishEditing_blocks.
Qed.

Lemma fireDue_blocks fuel t w : blocks (fireDue fuel t w) = blocks w.
Proof.
  revert w. induction fuel as [|fuel IH]; intros w; simpl; [done|].
  destruct (earliest (timers w)) as [tm|]; [|done].
  destruct (_ <=? _); [|done]. by rewrite IH, save_blocks.
Qed.

Lemma advance_blocks t w : blocks (advance t w) = blocks w.
Proof. unfold advance. simpl. apply fireDue_blocks. Qed.

End Frames.

(** ** Looking a page up in the store *)

Section StoreLookups.
Implicit Types (ps : Storage.Pages) (page p : Storage.Page).
Implicit Types (pid key : jsstring).

Lemma eqb_eq (a b : jsstring) : JS.eqb a b = true <-> a = b.
Proof. unfold JS.eqb. apply bool_decide_eq_true. Qed.

Lemma eqb_refl (a : jsstring) : JS.eqb a a = true.
Proof. by apply eqb_eq. Qed.

Lemma eqb_neq (a b : jsstring) : JS.eqb a b = false <-> a <> b.
Proof. unfold JS.eqb. apply bool_decide_eq_false. Qed.

Lemma own_cons pid p ps :
  Storage.own pid (p :: ps)
  = if JS.eqb (Storage.id p) pid then Some p else Storage.own pid ps.
Proof. done. Qed.

Lemma own_id pid page ps :
  Storage.own pid ps = Some page -> Storage.id page = pid.
Proof. intros [_ H]%find_some. by apply eqb_eq. Qed.

Lemma own_elem pid page ps : Storage.own pid ps = Some page -> page ∈ ps.
Proof. intros [H _]%find_some. by apply list_elem_of_In. Qed.

Lemma own_None pid ps :
  Storage.own pid ps = None <->
  forall page, page ∈ ps -> Storage.id page <> pid.
Proof.
  induction ps as [|p ps IH]; [by split; [intros _ ? ?%elem_of_nil|]|].
  rewrite own_cons. destruct (JS.eqb (Storage.id p) pid) eqn:E.
  - apply eqb_eq in E. split; [done|]. intros H. destruct (H p); [by left|done].
  - apply eqb_neq in E. rewrite IH. split.
    + intros H page [-> | Hin]%elem_of_cons; [done|by apply H].
    + intros H page Hin. apply H. by right.
Qed.

Lemma getPage_PageObject pid page ps :
  Storage.getPage pid ps = Some (Storage.PageObject page)
  <-> Storage.own pid ps = Some page.
Proof.
  unfold Storage.getPage. destruct (Storage.own pid ps) as [q|].
  - split; congruence.
  - destruct (JS.eqb pid Storage.protoKey); [done|].
    by case_bool_decide.
Qed.

Lemma getPage_id pid page ps :
  Storage.getPage pid ps = Some (Storage.PageObject page) ->
  Storage.id page = pid.
Proof. intros H%getPage_PageObject. by apply own_id in H. Qed.

Lemma getPage_own pid ps ps' :
  Storage.own pid ps' = Storage.own pid ps ->
  Storage.getPage pid ps' = Storage.getPage pid ps.
Proof. unfold Storage.getPage. by intros ->. Qed.

Lemma getPage_None pid ps :
  Storage.getPage pid ps = None
  <-> Storage.own pid ps = None /\ Storage.isInherited pid = false.
Proof.
  unfold Storage.getPage, Storage.isInherited.
  destruct (Storage.own pid ps); [by split; [|intros [? _]]|].
  destruct (JS.eqb pid Storage.protoKey); [by split; [|intros [_ ?]]|].
  case_bool_decide; [by split; [|intros [_ ?]]|done].
Qed.

(** Under the name of an inherited member, and without a page of that
    name, [pages[id]] is that member. *)
Lemma getPage_inherited pid ps :
  Storage.own pid ps = None -> Storage.isInherited pid = true ->
  Storage.getPage pid ps = Some Storage.ObjectPrototype
  \/ Storage.getPage pid ps = Some (Storage.InheritedFunction pid).
Proof.
  unfold Storage.getPage, Storage.isInherited. intros ->.
  destruct (JS.eqb pid Storage.protoKey); [by left|].
  case_bool_decide; [by right|done].
Qed.

Lemma hasOwn_true key ps :
  Storage.hasOwn key ps = true <-> Storage.own key ps <> None.
Proof. unfold Storage.hasOwn. by destruct (Storage.own key ps). Qed.

Lemma own_replaceProperty_same page ps :
  Storage.own (Storage.id page) ps <> None ->
  Storage.own (Storage.id page) (Storage.replaceProperty page ps)
  = Some page.
Proof.
  induction ps as [|p ps IH]; [done|]. rewrite own_cons. simpl.
  destruct (JS.eqb (Storage.id p) (Storage.id page)) eqn:E.
  - intros _. by rewrite own_cons, eqb_refl.
  - intros H. rewrite own_cons, E. by apply IH.
Qed.

Lemma own_replaceProperty_other pid page ps :
  pid <> Storage.id page ->
  Storage.own pid (Storage.replaceProperty page ps) = Storage.own pid ps.
Proof.
  intros Hne. induction ps as [|p ps IH]; [done|]. simpl.
  destruct (JS.eqb (Storage.id p) (Storage.id page)) eqn:E.
  - apply eqb_eq in E. rewrite !own_cons.
    assert (JS.eqb (Storage.id page) pid = false) as ->
      by (apply eqb_neq; congruence).
    assert (JS.eqb (Storage.id p) pid = false) as ->
      by (apply eqb_neq; congruence).
    done.
  - by rewrite !own_cons, IH.
Qed.

Lemma own_app pid ps ps' :
  Storage.own pid (ps ++ ps')
  = match Storage.own pid ps with
    | Some p => Some p
    | None => Storage.own pid ps'
    end.
Proof.
  induction ps as [|p ps IH]; [done|].
  change ((p :: ps) ++ ps') with (p :: (ps ++ ps')). rewrite !own_cons.
  by destruct (JS.eqb _ _).
Qed.

Lemma own_addIndexed_same n page ps :
  Storage.own (Storage.id page) ps = None ->
  Storage.own (Storage.id page) (Storage.addIndexed n page ps) = Some page.
Proof.
  induction ps as [|p ps IH]; cbn [Storage.addIndexed].
  - intros _. by rewrite own_cons, eqb_refl.
  - rewrite own_cons.
    destruct (JS.eqb (Storage.id p) (Storage.id page)) eqn:E; [done|].
    intros H. destruct (Storage.arrayIndex _) as [m|].
    + destruct (m <? n)%N.
      * rewrite own_cons, E. by apply IH.
      * by rewrite own_cons, eqb_refl.
    + by rewrite own_cons, eqb_refl.
Qed.

Lemma own_addIndexed_other pid n page ps :
  pid <> Storage.id page ->
  Storage.own pid (Storage.addIndexed n page ps) = Storage.own pid ps.
Proof.
  intros Hne.
  assert (JS.eqb (Storage.id page) pid = false) as Hf
    by (apply eqb_neq; congruence).
  induction ps as [|p ps IH]; cbn [Storage.addIndexed].
  - by rewrite own_cons, Hf.
  - destruct (Storage.arrayIndex _) as [m|].
    + destruct (m <? n)%N.
      * by rewrite !own_cons, IH.
      * by rewrite (own_cons pid page), Hf.
    + by rewrite (own_cons pid page), Hf.
Qed.

Lemma own_addProperty_same page ps :
  Storage.own (Storage.id page) ps = None ->
  Storage.own (Storage.id page) (Storage.addProperty page ps) = Some page.
Proof.
  intros H. unfold Storage.addProperty.
  destruct (Storage.arrayIndex _); [by apply own_addIndexed_same|].
  by rewrite own_app, H, own_cons, eqb_refl.
Qed.

Lemma own_addProperty_other pid page ps :
  pid <> Storage.id page ->
  Storage.own pid (Storage.addProperty page ps) = Storage.own pid ps.
Proof.
  intros Hne. unfold Storage.addProperty.
  destruct (Storage.arrayIndex _); [by apply own_addIndexed_other|].
  rewrite own_app, own_cons.
  assert (JS.eqb (Storage.id page) pid = false) as ->
    by (apply eqb_neq; congruence).
  by destruct (Storage.own pid ps).
Qed.

Lemma own_removeProperty_same pid ps :
  Storage.own pid (Storage.removeProperty pid ps) = None.
Proof.
  apply own_None. intros page Hin.
  apply list_elem_of_In, filter_In in Hin as [_ H].
  apply negb_true_iff in H. by apply eqb_neq in H.
Qed.

Lemma own_removeProperty_other pid key ps :
  pid <> key ->
  Storage.own pid (Storage.removeProperty key ps) = Storage.own pid ps.
Proof.
  intros Hne. induction ps as [|p ps IH]; [done|].
  unfold Storage.removeProperty in *. cbn [List.filter].
  destruct (JS.eqb (Storage.id p) key) eqn:E; cbn [negb].
  - apply eqb_eq in E. rewrite own_cons.
    assert (JS.eqb (Storage.id p) pid = false) as ->
      by (apply eqb_neq; congruence).
    done.
  - by rewrite !own_cons, IH.
Qed.

Lemma removeProperty_absent key ps :
  Storage.own key ps = None -> Storage.removeProperty key ps = ps.
Proof.
  induction ps as [|p ps IH]; [done|]. rewrite own_cons.
  unfold Storage.removeProperty in *. cbn [List.filter].
  destruct (JS.eqb (Storage.id p) key); [done|]. cbn [negb].
  intros H. by rewrite IH.
Qed.

(** [pages[page.id] = page] puts [page] under its id, unless the id is
    [__proto__] and [pages] has no such property. *)
Lemma own_setProperty_same page ps :
  Storage.own (Storage.id page) ps <> None
  \/ Storage.id page <> Storage.protoKey ->
  Storage.own (Storage.id page) (Storage.setProperty page ps) = Some page.
Proof.
  intros H. unfold Storage.setProperty, Storage.hasOwn.
  destruct (Storage.own (Storage.id page) ps) as [q|] eqn:E.
  - apply own_replaceProperty_same. by rewrite E.
  - destruct H as [H | H]; [done|].
    apply eqb_neq in H. rewrite H. by apply own_addProperty_same.
Qed.

Lemma own_setProperty_other pid page ps :
  pid <> Storage.id page ->
  Storage.own pid (Storage.setProperty page ps) = Storage.own pid ps.
Proof.
  intros Hne. unfold Storage.setProperty.
  destruct (Storage.hasOwn _ _); [by apply own_replaceProperty_other|].
  destruct (JS.eqb _ _); [done|]. by apply own_addProperty_other.
Qed.

(** A generated id starts with [id_]: it is not empty, not an array
    index, and not the name of an inherited member. *)
Lemma generateId_truthy stamp random :
  truthy (Storage.generateId stamp random) = true.
Proof. done. Qed.

Lemma generateId_arrayIndex stamp random :
  Storage.arrayIndex (Storage.generateId stamp random) = None.
Proof. done. Qed.

Lemma generateId_not_inherited stamp random :
  Storage.generateId stamp random <> Storage.protoKey
  /\ Storage.generateId stamp random ∉ Storage.inheritedFunctions.
Proof.
  split; [done|]. unfold Storage.inheritedFunctions. cbn [map].
  intros H. repeat (apply elem_of_cons in H as [H | H]; [done|]).
  by apply elem_of_nil in H.
Qed.

(** [save] on an open page that is stored. *)
Lemma save_stored w pid page :
  currentPageId w = Some pid -> truthy pid = true ->
  Storage.getPage pid (pages w) = Some (Storage.PageObject page) ->
  let page' := Storage.mkPage pid
                 (if truthy (titleInput w) then titleInput w
                  else lit "Untitled")
                 (serialize (blocks w)) in
  save w = with_store (Storage.replaceProperty page' (pages w))
             (saved w ++ [page']) w.
Proof.
  intros Hc Ht Hp. unfold save. rewrite Hc, Ht, Hp. simpl.
  pose proof (getPage_id _ _ _ Hp) as Hid. rewrite Hid.
  unfold Storage_savePage, Storage.savePage. cbn [Storage.id].
  rewrite Ht. unfold Storage.setProperty. cbn [Storage.id].
  apply getPage_PageObject in Hp.
  unfold Storage.hasOwn. by rewrite Hp.
Qed.

End StoreLookups.

(** ** Lengths and positions under the array primitives *)

Section Arrays.
Context {A : Type}.
Implicit Types (l pre post : list A) (i : Z).

Lemma spliceStart_le i l : (spliceStart i l <= length l)%nat.
Proof. unfold spliceStart. destruct (Z.ltb_spec i 0); lia. Qed.

Lemma length_spliceInsert i x l :
  length (spliceInsert i x l) = S (length l).
Proof.
  unfold spliceInsert. pose proof (spliceStart_le i l).
  rewrite length_app, length_take. simpl. rewrite length_drop. lia.
Qed.

Lemma length_spliceRemove i l :
  (length l - 1 <= length (spliceRemove i l))%nat.
Proof.
  unfold spliceRemove. generalize (spliceStart i l). intros k.
  revert k. induction l as [|a l IH]; intros [|k]; simpl; try lia.
  specialize (IH k). lia.
Qed.

Lemma spliceRemove_behind i l :
  Z.of_nat (length l) <= i -> spliceRemove i l = l.
Proof.
  intros H. unfold spliceRemove, spliceStart.
  destruct (Z.ltb_spec i 0); [lia|].
  rewrite Z.min_r by lia. rewrite Nat2Z.id.
  rewrite delete_take_drop, take_ge, drop_ge by lia.
  apply app_nil_r.
Qed.

Lemma length_alter_Z (f : A -> A) i l : length (alter_Z f i l) = length l.
Proof. unfold alter_Z. destruct (i <? 0); [done|]. apply length_alter. Qed.

Lemma alter_Z_middle (f : A -> A) pre post x :
  alter_Z f (Z.of_nat (length pre)) (pre ++ x :: post) = pre ++ f x :: post.
Proof.
  unfold alter_Z. destruct (Z.ltb_spec (Z.of_nat (length pre)) 0); [lia|].
  rewrite Nat2Z.id. rewrite alter_app_r_alt by lia.
  by replace (length pre - length pre)%nat with 0%nat by lia.
Qed.

Lemma spliceInsert_after pre post x y :
  spliceInsert (Z.of_nat (length pre) + 1) y (pre ++ x :: post)
  = pre ++ x :: y :: post.
Proof.
  unfold spliceInsert, spliceStart.
  destruct (Z.ltb_spec (Z.of_nat (length pre) + 1) 0); [lia|].
  rewrite length_app. simpl length.
  replace (Z.to_nat _) with (length (pre ++ [x])).
  2:{ rewrite length_app. simpl. lia. }
  change (pre ++ x :: post) with (pre ++ [x] ++ post).
  rewrite app_assoc, take_app_length, drop_app_length.
  by rewrite <- app_assoc.
Qed.

End Arrays.

Create Rewrite HintDb blocks_frame.
#[local] Hint Rewrite save_blocks debouncedSave_blocks finishEditing_blocks
  editBlock_blocks advance_blocks fireDue_blocks : blocks_frame.
#[local] Hint Rewrite @length_spliceInsert @length_alter_Z : blocks_frame.

(** ** The document is never empty *)

Section NeverEmpty.
Implicit Types (w : State).

Lemma groupLines_acc lines blockLines acc :
  (length acc <= length (groupLines lines blockLines acc))%nat.
Proof.
  revert blockLines acc.
  induction lines as [|line rest IH]; intros blockLines acc; simpl; [done|].
  destruct (negb (truthy line) || _); [|apply IH].
  etrans; [|apply IH].
  destruct (truthy _ || _); [rewrite length_app; simpl|]; lia.
Qed.

Lemma deserialize_nonempty text : (1 <= length (deserialize text))%nat.
Proof. unfold deserialize. destruct (groupLines _ _ _); simpl; lia. Qed.

Lemma loadPage_nonempty page w : nonempty (loadPage page w).
Proof. apply deserialize_nonempty. Qed.

Lemma deleteBlock_nonempty i w :
  nonempty w -> nonempty (state_of (deleteBlock i w)).
Proof.
  unfold nonempty, deleteBlock. intros H.
  destruct (Z.leb_spec (Z.of_nat (length (blocks w))) 1).
  - destruct (blocks w); simpl in *; lia.
  - simpl. pose proof (length_spliceRemove i (blocks w)). lia.
Qed.

Lemma deleteEach_nonempty indices w :
  nonempty w -> nonempty (state_of (deleteEach indices w)).
Proof.
  unfold nonempty. revert w.
  induction indices as [|i rest IH]; intros w H; simpl; [done|].
  destruct (Z.gtb_spec (Z.of_nat (length (blocks w))) 1).
  - apply IH. simpl. pose proof (length_spliceRemove i (blocks w)). lia.
  - destruct (blocks w) eqn:Eb; simpl in *; [lia|]. apply IH. simpl. lia.
Qed.

Lemma deleteSelectedBlocks_nonempty w :
  nonempty w -> nonempty (state_of (deleteSelectedBlocks w)).
Proof.
  intros H. unfold deleteSelectedBlocks.
  destruct (selectedBlocks w) eqn:Es; [done|]. rewrite <- Es.
  pose proof (deleteEach_nonempty (sort_desc (selectedBlocks w)) w H) as H'.
  destruct (deleteEach _ w); simpl in *; [|done].
  unfold nonempty. by rewrite save_blocks.
Qed.

Lemma insertAtCursor_nonempty text w :
  nonempty w -> nonempty (state_of (insertAtCursor text w)).
Proof.
  unfold nonempty, insertAtCursor. intros H.
  destruct (_ >=? 0).
  - destruct (nth_Z _ _); simpl; [|done].
    by autorewrite with blocks_frame; simpl; autorewrite with blocks_frame.
  - destruct (_ >? 0); simpl; autorewrite with blocks_frame; lia.
Qed.

Lemma onKeydown_nonempty e i value sel w :
  nonempty w -> nonempty (state_of (onKeydown e i value sel w)).
Proof.
  unfold nonempty, onKeydown. intros H.
  repeat match goal with
  | |- context [if ?b then _ else _] => destruct b
  end; simpl;
  repeat (autorewrite with blocks_frame; simpl); try lia.
  pose proof (deleteBlock_nonempty i w H) as H'. unfold nonempty in H'.
  destruct (deleteBlock i w); simpl in *; [|done].
  by rewrite editBlock_blocks.
Qed.

Lemma perform_nonempty op w :
  nonempty w -> nonempty (state_of (perform op w)).
Proof.
  intros H. destruct op; simpl;
    first [ by apply onKeydown_nonempty
          | by apply deleteBlock_nonempty
          | by apply deleteSelectedBlocks_nonempty
          | by apply insertAtCursor_nonempty
          | unfold nonempty in *; simpl;
            autorewrite with blocks_frame; lia ].
Qed.

Lemma run_nonempty ops w : nonempty w -> nonempty (run ops w).
Proof.
  revert w. induction ops as [|op ops IH]; intros w H; [done|].
  apply IH. by apply perform_nonempty.
Qed.

End NeverEmpty.

(** C1. After [loadPage] has built the document from a page's content,
    every finite sequence of operations of the model leaves at least one
    block in the document. *)
Theorem blocks_never_empty (page : Storage.Page) (w : State) (ops : list Op) :
  (1 <= length (blocks (run ops (loadPage page w))))%nat.
Proof. apply run_nonempty, loadPage_nonempty. Qed.

(** ** Strings: [split], [join] and [trim] *)

Section Strings.
Implicit Types (s x y : jsstring) (ls : list jsstring) (c : char).

Lemma split_not_nil s : split s <> [].
Proof.
  destruct s as [|c s]; simpl; [done|].
  destruct (c =? LF)%N; [done|]. by destruct (split s).
Qed.

Lemma split_app_LF x y : split (x ++ LF :: y) = split x ++ split y.
Proof.
  induction x as [|c x IH]; simpl; [done|].
  destruct (c =? LF)%N; [by rewrite IH|].
  rewrite IH. pose proof (split_not_nil x). by destruct (split x).
Qed.

Lemma join_cons sep x ls :
  ls <> [] -> join sep (x :: ls) = x ++ sep ++ join sep ls.
Proof. by destruct ls. Qed.

Lemma join_snoc sep ls x :
  ls <> [] -> join sep (ls ++ [x]) = join sep ls ++ sep ++ x.
Proof.
  induction ls as [|l ls IH]; intros Hne; [done|].
  destruct ls as [|l' ls]; [done|].
  change ((l :: l' :: ls) ++ [x]) with (l :: ((l' :: ls) ++ [x])).
  rewrite !join_cons by done. rewrite IH by done.
  by rewrite <- !app_assoc.
Qed.

Lemma join_split s : join [LF] (split s) = s.
Proof.
  induction s as [|c s IH]; simpl; [done|].
  pose proof (split_not_nil s) as Hne.
  destruct (c =? LF)%N eqn:E.
  - apply N.eqb_eq in E. subst c.
    rewrite join_cons by done. simpl. by rewrite IH.
  - destruct (split s) as [|l ls]; [done|].
    destruct ls; simpl in *; by rewrite <- IH.
Qed.

Lemma trimEnd_snoc s c :
  trimEnd (s ++ [c]) = if isWhiteSpace c then trimEnd s else s ++ [c].
Proof.
  unfold trimEnd. rewrite rev_app_distr. simpl.
  destruct (isWhiteSpace c); [done|].
  simpl. by rewrite rev_involutive.
Qed.

End Strings.

Section Lines.
Implicit Types (s : jsstring).

Lemma hasDoubleNewline_tail c s :
  hasDoubleNewline (c :: s) = false -> hasDoubleNewline s = false.
Proof.
  simpl. destruct s; [done|]. intros H. by apply orb_false_iff in H as [_ H].
Qed.

Lemma last_cons_cons {A} (a b : A) l : last (a :: b :: l) = last (b :: l).
Proof. done. Qed.

(** Without a doubled or a final newline, only the first line of a string
    can be empty, and only when the string is empty or starts with a
    newline. *)
Lemma split_lines_have_text s :
  hasDoubleNewline s = false -> last s <> Some LF ->
  Forall hasText (tail (split s))
  /\ (s <> [] -> head s <> Some LF -> Forall hasText (split s)).
Proof.
  induction s as [|c s IH]; intros Hd Hl; [by split|].
  assert (Hd' := hasDoubleNewline_tail _ _ Hd).
  assert (last s <> Some LF) as Hl'.
  { destruct s; [done|]. by rewrite last_cons_cons in Hl. }
  destruct (IH Hd' Hl') as [IH1 IH2]. simpl.
  destruct (c =? LF)%N eqn:E.
  - apply N.eqb_eq in E. subst c. split; [|done]. simpl.
    apply IH2.
    + intros ->. by apply Hl.
    + destruct s as [|d s]; [done|]. simpl in Hd.
      apply orb_false_iff in Hd as [Hd _]. simpl in Hd.
      apply N.eqb_neq in Hd. simpl. congruence.
  - pose proof (split_not_nil s) as Hne.
    destruct (split s) as [|l ls]; [done|]. simpl in *.
    split; [done|]. intros _ _. by constructor.
Qed.

Lemma isWhiteSpace_LF : isWhiteSpace LF = true.
Proof. done. Qed.

Lemma safe_lines b :
  safe b = true -> content b <> [] -> Forall hasText (split (content b)).
Proof.
  unfold safe. intros H Hne.
  apply andb_true_iff in H as [H Hd]. apply andb_true_iff in H as [Hs He].
  apply negb_true_iff in Hs, He, Hd.
  apply split_lines_have_text; [done| |done|].
  - unfold endsWithWhiteSpace in He. intros E. rewrite E in He.
    by rewrite isWhiteSpace_LF in He.
  - destruct (content b) as [|c s]; [done|]. simpl in *.
    intros [= ->]. by rewrite isWhiteSpace_LF in Hs.
Qed.

Lemma safe_trim b : safe b = true -> trim (content b) = content b.
Proof.
  unfold safe. intros H.
  apply andb_true_iff in H as [H _]. apply andb_true_iff in H as [Hs He].
  apply negb_true_iff in Hs, He. unfold trim.
  destruct (content b) as [|c s] eqn:Ec; [done|].
  simpl in Hs. simpl. rewrite Hs. rewrite <- Ec in *.
  clear Ec Hs. unfold endsWithWhiteSpace in He.
  destruct (content b) as [|d s'] using rev_ind; [done|].
  rewrite last_snoc in He. by rewrite trimEnd_snoc, He.
Qed.

Lemma safe_trim_LF b :
  safe b = true -> content b <> [] -> trim (content b ++ [LF]) = content b.
Proof.
  intros H Hne. pose proof (safe_trim b H) as Ht. unfold trim in *.
  unfold safe in H.
  apply andb_true_iff in H as [H _]. apply andb_true_iff in H as [Hs _].
  apply negb_true_iff in Hs.
  destruct (content b) as [|c s]; [done|]. simpl in *.
  rewrite Hs in *. change (c :: s ++ [LF]) with ((c :: s) ++ [LF]).
  by rewrite trimEnd_snoc, isWhiteSpace_LF.
Qed.

End Lines.

(** ** The loop of [loadPage] on a serialized document *)

Section Grouping.
Implicit Types (ls rest blockLines : list jsstring) (acc d : list Block).

Lemma groupLines_text_more l l' ls blockLines acc :
  hasText l ->
  groupLines (l :: l' :: ls) blockLines acc
  = groupLines (l' :: ls) (blockLines ++ [l]) acc.
Proof. unfold hasText. intros H. simpl. by rewrite H. Qed.

Lemma groupLines_blank_more l' ls blockLines acc :
  groupLines ([] :: l' :: ls) blockLines acc
  = groupLines (l' :: ls) []
      (if truthy (trim (join [LF] (blockLines ++ [[]])))
       then acc ++ [mkBlock (trim (join [LF] (blockLines ++ [[]])))]
       else acc).
Proof. simpl. by rewrite orb_false_r. Qed.

Lemma groupLines_single l blockLines acc :
  groupLines [l] blockLines acc
  = acc ++ [mkBlock (trim (join [LF] (blockLines ++ [l])))].
Proof. simpl. by rewrite !orb_true_r. Qed.

(** Lines with text that are not the last ones go to [blockLines]. *)
Lemma groupLines_collect ls rest blockLines acc :
  Forall hasText ls -> rest <> [] ->
  groupLines (ls ++ rest) blockLines acc
  = groupLines rest (blockLines ++ ls) acc.
Proof.
  intros Hls Hrest. revert blockLines.
  induction Hls as [|l ls Hl _ IH]; intros blockLines.
  - by rewrite app_nil_r.
  - change ((l :: ls) ++ rest) with (l :: (ls ++ rest)).
    destruct (ls ++ rest) as [|l' r] eqn:E.
    + apply app_eq_nil in E as [_ ?]. done.
    + rewrite groupLines_text_more by done.
      rewrite IH. by rewrite <- app_assoc.
Qed.

(** The last lines of the input close the last block. *)
Lemma groupLines_last ls blockLines acc :
  Forall hasText ls -> ls <> [] ->
  groupLines ls blockLines acc
  = acc ++ [mkBlock (trim (join [LF] (blockLines ++ ls)))].
Proof.
  intros Hls. revert blockLines.
  induction Hls as [|l ls Hl _ IH]; intros blockLines Hne; [done|].
  destruct ls as [|l' ls].
  - apply groupLines_single.
  - rewrite groupLines_text_more by done.
    rewrite IH by done. by rewrite <- app_assoc.
Qed.

Lemma serialize_cons b d :
  d <> [] ->
  serialize (b :: d) = content b ++ LF :: LF :: serialize d.
Proof. unfold serialize. by destruct d. Qed.

Lemma groupLines_serialize d acc :
  d <> [] -> Forall (fun b => safe b = true) d ->
  innerBlocksHaveText d = true ->
  groupLines (split (serialize d)) [] acc = acc ++ d.
Proof.
  intros Hne Hsafe. revert acc.
  induction Hsafe as [|b d Hb Hd IH]; intros acc Hin; [done|].
  destruct d as [|b2 d].
  - unfold serialize. simpl map. simpl join.
    destruct (decide (content b = [])) as [E|E].
    + rewrite E. destruct b. simpl in E. by subst.
    + rewrite groupLines_last;
        [|by apply safe_lines|apply split_not_nil].
      simpl app. rewrite join_split, safe_trim by done. by destruct b.
  - change (innerBlocksHaveText (b :: b2 :: d))
      with (truthy (content b) && innerBlocksHaveText (b2 :: d)) in Hin.
    apply andb_true_iff in Hin as [Hb' Hin].
    assert (content b <> []) as Hc by (by destruct (content b)).
    rewrite serialize_cons by done.
    rewrite split_app_LF.
    rewrite groupLines_collect; [|by apply safe_lines|apply split_not_nil].
    change (split (LF :: serialize (b2 :: d)))
      with ([] :: split (serialize (b2 :: d))).
    pose proof (split_not_nil (serialize (b2 :: d))) as Hs.
    destruct (split (serialize (b2 :: d))) as [|l ls] eqn:E; [done|].
    rewrite groupLines_blank_more.
    rewrite app_nil_l, join_snoc by apply split_not_nil.
    rewrite join_split, app_nil_r, safe_trim_LF by done.
    rewrite Hb'. rewrite IH by done. destruct b. by rewrite <- app_assoc.
Qed.

End Grouping.

(** C2 (as amended). [deserialize] gives back the blocks of a serialized
    document that has at least one block, whose blocks' contents have no
    leading or trailing whitespace and no two consecutive newlines, and in
    which every block but the last has text. *)
Theorem deserialize_serialize (d : list Block) :
  d <> [] ->
  Forall (fun b => safe b = true) d ->
  innerBlocksHaveText d = true ->
  map content (deserialize (serialize d)) = map content d.
Proof.
  intros Hne Hsafe Hin. unfold deserialize.
  rewrite groupLines_serialize by done. simpl. by destruct d.
Qed.

(** The round trip on a two-block document whose second block is empty. *)
Lemma deserialize_serialize_witness :
  doc ["line one"; ""]%string <> []
  /\ Forall (fun b => safe b = true) (doc ["line one"; ""]%string)
  /\ innerBlocksHaveText (doc ["line one"; ""]%string) = true
  /\ map content (deserialize (serialize (doc ["line one"; ""]%string)))
     = map content (doc ["line one"; ""]%string).
Proof.
  assert (doc ["line one"; ""]%string <> []) as H1 by discriminate.
  assert (Forall (fun b => safe b = true) (doc ["line one"; ""]%string))
    as H2 by (repeat constructor).
  assert (innerBlocksHaveText (doc ["line one"; ""]%string) = true)
    as H3 by reflexivity.
  split; [exact H1|]. split; [exact H2|]. split; [exact H3|].
  exact (deserialize_serialize (doc ["line one"; ""]%string) H1 H2 H3).
Defined.

(** C2 (as stated) fails: an empty block between two others is lost. *)
Lemma round_trip_drops_empty_block :
  Forall (fun b => safe b = true) (doc ["a"; ""; "b"]%string)
  /\ map content (deserialize (serialize (doc ["a"; ""; "b"]%string)))
     <> map content (doc ["a"; ""; "b"]%string).
Proof. split; [repeat constructor|]. vm_compute. discriminate. Qed.

(** ** Entering and leaving edit mode *)

Section EditMode.
Implicit Types (w : State) (i : Z).

Lemma finishEditing_currentBlockIndex w :
  currentBlockIndex (finishEditing w)
  = if currentBlockIndex w <? 0 then currentBlockIndex w else -1.
Proof.
  unfold finishEditing. destruct (_ <? 0); [done|].
  by rewrite save_currentBlockIndex.
Qed.

Lemma finishEditing_idle w : currentBlockIndex w < 0 -> finishEditing w = w.
Proof.
  unfold finishEditing. intros H.
  by destruct (Z.ltb_spec (currentBlockIndex w) 0); [|lia].
Qed.

Lemma editBlock_in_range i w :
  0 <= i < Z.of_nat (length (blocks w)) ->
  currentBlockIndex (editBlock i w) = i.
Proof.
  intros H. unfold editBlock. rewrite finishEditing_blocks.
  destruct (Z.ltb_spec i 0); [lia|].
  destruct (Z.geb_spec i (Z.of_nat (length (blocks w)))); [lia|]. done.
Qed.

Lemma editBlock_out_of_range i w :
  i < 0 \/ Z.of_nat (length (blocks w)) <= i ->
  editBlock i w = finishEditing w.
Proof.
  intros H. unfold editBlock. rewrite finishEditing_blocks.
  destruct (Z.ltb_spec i 0); [done|].
  destruct (Z.geb_spec i (Z.of_nat (length (blocks w)))); [done|lia].
Qed.

(** [insertAtCursor] while a block is being edited: the text is appended
    and the edit is committed; [editBlock] is then called with the index
    that [finishEditing] has just reset, and returns at its range test. *)
Lemma insertAtCursor_editing text w :
  0 <= currentBlockIndex w < Z.of_nat (length (blocks w)) ->
  exists w',
    insertAtCursor text w = Normal w'
    /\ blocks w'
       = alter_Z (appendContent text) (currentBlockIndex w) (blocks w)
    /\ currentBlockIndex w' = -1.
Proof.
  intros H. unfold insertAtCursor.
  destruct (Z.geb_spec (currentBlockIndex w) 0); [|lia].
  unfold nth_Z. destruct (Z.ltb_spec (currentBlockIndex w) 0); [lia|].
  destruct (blocks w !! Z.to_nat (currentBlockIndex w)) eqn:E.
  2:{ apply lookup_ge_None in E. lia. }
  set (w1 := with_blocks
               (alter_Z (appendContent text) (currentBlockIndex w)
                  (blocks w)) w).
  assert (currentBlockIndex (finishEditing w1) = -1) as Hi.
  { rewrite finishEditing_currentBlockIndex. simpl.
    by destruct (Z.ltb_spec (currentBlockIndex w) 0); [lia|]. }
  rewrite Hi, editBlock_out_of_range by lia.
  rewrite (finishEditing_idle (finishEditing w1)) by lia.
  eexists. split; [done|]. simpl. by rewrite finishEditing_blocks.
Qed.

End EditMode.

(** C3. With the single block [a] being edited, [insertAtCursor] appends the
    text and commits the edit, and no block is being edited afterwards:
    edit mode is not opened again on block 0. *)
Theorem insertAtCursor_does_not_reopen :
  exists w',
    insertAtCursor (lit "x") (editing 0 ["a"]%string) = Normal w'
    /\ blocks w' = doc ["ax"]%string
    /\ currentBlockIndex w' = -1.
Proof.
  destruct (insertAtCursor_editing (lit "x") (editing 0 ["a"]%string))
    as (w' & E & Hb & Hi).
  { simpl. lia. }
  exists w'. by rewrite Hb.
Qed.

(** C4 (as amended). For an index outside the blocks, [editBlock] does
    what [finishEditing] does and no more: nothing when no block is being
    edited, and otherwise it commits the edit in progress, saving the
    page, so that no block is being edited afterwards; the blocks are as
    they were. [deleteBlock] with an index at or behind the end of a
    document of two or more blocks leaves the blocks and the edit position
    as they are, and schedules a save. Neither raises. *)
Theorem out_of_range_index (index : Z) (w : State) :
  index < 0 \/ Z.of_nat (length (blocks w)) <= index ->
  (editBlock index w = finishEditing w
   /\ (currentBlockIndex w < 0 -> editBlock index w = w)
   /\ (0 <= currentBlockIndex w ->
       editBlock index w = save (with_currentBlockIndex (-1) w))
   /\ blocks (editBlock index w) = blocks w
   /\ currentBlockIndex (editBlock index w)
      = if currentBlockIndex w <? 0 then currentBlockIndex w else -1)
  /\ ((2 <= length (blocks w))%nat -> Z.of_nat (length (blocks w)) <= index ->
      exists w',
        deleteBlock index w = Normal w'
        /\ w' = debouncedSave (with_blocks (blocks w) w)
        /\ blocks w' = blocks w
        /\ currentBlockIndex w' = currentBlockIndex w).
Proof.
  intros H. split.
  - rewrite editBlock_out_of_range by done.
    split; [done|]. split; [apply finishEditing_idle|]. split; [|split].
    + intros Hi. unfold finishEditing.
      by destruct (Z.ltb_spec (currentBlockIndex w) 0); [lia|].
    + apply finishEditing_blocks.
    + apply finishEditing_currentBlockIndex.
  - intros H2 Hge. unfold deleteBlock.
    destruct (Z.leb_spec (Z.of_nat (length (blocks w))) 1); [lia|].
    rewrite spliceRemove_behind by done.
    eexists. split; [done|]. by split.
Qed.

(** Index 2 on the two blocks [a], [b], the second being edited. *)
Lemma out_of_range_index_witness :
  (editBlock 2 (editing 1 ["a"; "b"]%string)
   = finishEditing (editing 1 ["a"; "b"]%string)
   /\ blocks (editBlock 2 (editing 1 ["a"; "b"]%string))
      = doc ["a"; "b"]%string
   /\ currentBlockIndex (editBlock 2 (editing 1 ["a"; "b"]%string)) = -1)
  /\ exists w',
       deleteBlock 2 (editing 1 ["a"; "b"]%string) = Normal w'
       /\ blocks w' = doc ["a"; "b"]%string /\ currentBlockIndex w' = 1.
Proof.
  destruct (out_of_range_index 2 (editing 1 ["a"; "b"]%string))
    as [(He & _ & _ & Hb & Hi) Hd]; [simpl; lia|].
  split; [by split|].
  destruct Hd as (w' & E & _ & Hb' & Hi'); [simpl; lia..|].
  by exists w'.
Defined.

(** C4 (as stated) fails: [editBlock] with an index out of range ends the
    edit in progress, [deleteBlock] clears the only block whatever the
    index, and takes a negative index from the end. *)
Lemma out_of_range_index_changes_state :
  currentBlockIndex (editBlock 5 (editing 0 ["a"]%string))
  <> currentBlockIndex (editing 0 ["a"]%string)
  /\ blocks (state_of (deleteBlock 7 (editing (-1) ["x"]%string)))
     <> blocks (editing (-1) ["x"]%string)
  /\ blocks (state_of (deleteBlock (-1) (editing (-1) ["a"; "b"]%string)))
     <> blocks (editing (-1) ["a"; "b"]%string).
Proof. repeat split; vm_compute; discriminate. Qed.

(** ** Splitting a block *)

(** C5. Enter without shift in the textarea of the block [hello world],
    with the cursor at position 5, puts the blocks [hello] and [ world] in
    its place, and the second of them is being edited. *)
Theorem enter_splits_block (w : State) (pre post : list Block) :
  let index := Z.of_nat (length pre) in
  let w0 := with_currentBlockIndex index
              (with_blocks (pre ++ mkBlock (lit "hello world") :: post) w) in
  exists w',
    onKeydown (mkKeyEvent Enter false) index (lit "hello world") 5 w0
    = Normal w'
    /\ blocks w'
       = pre ++ mkBlock (lit "hello") :: mkBlock (lit " world") :: post
    /\ currentBlockIndex w' = index + 1.
Proof.
  intros index w0. eexists. split; [reflexivity|].
  assert (blocks (addBlock (index + 1) (substring_from 5 (lit "hello world"))
            (finishEditing
               (with_blocks
                  (alter_Z (setContent (substring_to 5 (lit "hello world")))
                     index (blocks w0)) w0)))
          = pre ++ mkBlock (lit "hello") :: mkBlock (lit " world") :: post)
    as Hb.
  { unfold addBlock. rewrite debouncedSave_blocks. simpl blocks at 1.
    rewrite finishEditing_blocks. simpl blocks.
    unfold index. rewrite alter_Z_middle. apply spliceInsert_after. }
  split.
  - rewrite editBlock_blocks. exact Hb.
  - apply editBlock_in_range. rewrite Hb, length_app. simpl. lia.
Qed.

(** ** Bulk deletion *)

(** C6. With the blocks [a], [b], [c], [d] and the indices 1 and 3
    selected, [deleteSelectedBlocks] works through the indices 3 then 1
    and leaves the blocks [a], [c] and an empty selection. *)
Theorem deleteSelected_example (w : State) (sel : list Z) :
  sel = [1; 3] \/ sel = [3; 1] ->
  sort_desc sel = [3; 1]
  /\ exists w',
       deleteSelectedBlocks
         (with_selectedBlocks sel
            (with_blocks (doc ["a"; "b"; "c"; "d"]%string) w))
       = Normal w'
       /\ blocks w' = doc ["a"; "c"]%string
       /\ selectedBlocks w' = [].
Proof.
  intros Hsel. split; [by destruct Hsel as [-> | ->]|].
  set (w1 := with_selectedBlocks []
               (with_blocks (doc ["a"; "c"]%string)
                  (with_selectedBlocks sel
                     (with_blocks (doc ["a"; "b"; "c"; "d"]%string) w)))).
  exists (save w1). split; [by destruct Hsel as [-> | ->]|].
  by rewrite save_blocks, save_selectedBlocks.
Qed.

(** The selection made in the order 1, 3, on the open page. *)
Lemma deleteSelected_example_witness :
  sort_desc [1; 3] = [3; 1]
  /\ exists w',
       deleteSelectedBlocks
         (with_selectedBlocks [1; 3]
            (with_blocks (doc ["a"; "b"; "c"; "d"]%string) openedPage))
       = Normal w'
       /\ blocks w' = doc ["a"; "c"]%string
       /\ selectedBlocks w' = [].
Proof. apply (deleteSelected_example openedPage [1; 3]). by left. Defined.

(** ** Selection *)

(** C8. [toggleBlockSelection] adds the index to the selection or removes
    it from it, and leaves everything else as it is: the blocks, the edit
    position, the store and the log of its writes, and the pending
    timers. *)
Theorem toggleBlockSelection_frame (index : Z) (selected : bool) (w : State) :
  (forall j, j ∈ selectedBlocks (toggleBlockSelection index selected w) <->
     if selected then j = index \/ j ∈ selectedBlocks w
     else j <> index /\ j ∈ selectedBlocks w)
  /\ toggleBlockSelection index selected w
     = with_selectedBlocks
         (selectedBlocks (toggleBlockSelection index selected w)) w
  /\ blocks (toggleBlockSelection index selected w) = blocks w
  /\ currentBlockIndex (toggleBlockSelection index selected w)
     = currentBlockIndex w
  /\ saved (toggleBlockSelection index selected w) = saved w
  /\ pages (toggleBlockSelection index selected w) = pages w
  /\ saveTimeout (toggleBlockSelection index selected w) = saveTimeout w
  /\ timers (toggleBlockSelection index selected w) = timers w.
Proof.
  split; [|by repeat split].
  intros j. simpl. destruct selected.
  - unfold set_add, set_has. case_bool_decide as Hin.
    + split; [by right|]. intros [-> | ?]; done.
    + rewrite elem_of_app, list_elem_of_singleton. tauto.
  - unfold set_delete. rewrite list_elem_of_filter. tauto.
Qed.

(** ** The debounce timer *)

Section Debounce.

Lemma earliest_elem ts tm : earliest ts = Some tm -> tm ∈ ts.
Proof.
  revert tm. induction ts as [|t ts IH]; intros tm; simpl; [done|].
  destruct (earliest ts) as [u|].
  - destruct (_ <? _); intros [= <-]; [right; by apply IH|by left].
  - intros [= <-]. by left.
Qed.

Lemma earliest_least ts u tm :
  earliest ts = Some u -> tm ∈ ts -> timer_due u <= timer_due tm.
Proof.
  revert u. induction ts as [|t ts IH]; intros u; simpl; [done|].
  destruct (earliest ts) as [v|] eqn:E.
  - destruct (Z.ltb_spec (timer_due v) (timer_due t));
      intros [= <-] [-> | Hin]%elem_of_cons; try lia.
    + by apply IH.
    + specialize (IH v eq_refl Hin). lia.
  - intros [= <-] [-> | Hin]%elem_of_cons; [lia|].
    destruct ts; [by apply elem_of_nil in Hin|]. simpl in E.
    by destruct (earliest ts) as [?|]; [destruct (_ <? _)|].
Qed.

(** Nothing is due: time just passes. *)
Lemma advance_idle t w :
  (forall tm, tm ∈ timers w -> t < timer_due tm) ->
  advance t w = with_now (Z.max (now w) t) (timers w) w.
Proof.
  intros H. unfold advance.
  assert (fireDue (length (timers w)) t w = w) as ->; [|done].
  destruct (length (timers w)); simpl; [done|].
  destruct (earliest (timers w)) as [tm|] eqn:E; [|done].
  apply earliest_elem, H in E.
  by destruct (Z.leb_spec (timer_due tm) t); [lia|].
Qed.

Lemma clearTimeout_shorter tm ts :
  tm ∈ ts -> (length (clearTimeout (timer_id tm) ts) < length ts)%nat.
Proof.
  unfold clearTimeout. induction 1 as [tm ts|tm t ts _ IH].
  - rewrite filter_cons_False by (by intros H; apply H).
    pose proof (length_filter (λ t, timer_id t ≠ timer_id tm) ts).
    simpl. lia.
  - rewrite filter_cons. destruct (decide _); simpl; lia.
Qed.

Lemma clearTimeout_all h ts :
  (forall tm, tm ∈ ts -> timer_id tm = h) -> clearTimeout h ts = [].
Proof.
  unfold clearTimeout. induction ts as [|t ts IH]; intros H; [done|].
  rewrite filter_cons_False.
  - apply IH. intros tm Hin. apply H. by right.
  - intros Hne. apply Hne, H. by left.
Qed.

Lemma clearTimeout_subseteq h ts tm :
  tm ∈ clearTimeout h ts -> tm ∈ ts.
Proof. unfold clearTimeout. by intros [_ ?]%list_elem_of_filter. Qed.

Lemma save_tracked w : tracked w -> tracked (save w).
Proof.
  unfold tracked. destruct (save_timers w) as (-> & -> & _). done.
Qed.

Lemma save_pageOpen w : pageOpen w -> pageOpen (save w).
Proof.
  intros (pid & page & Hc & Ht & Hp).
  rewrite (save_stored w pid page Hc Ht Hp).
  exists pid. eexists. split; [done|]. split; [done|].
  cbn [pages with_store]. apply getPage_PageObject.
  apply getPage_PageObject in Hp.
  apply (own_replaceProperty_same (Storage.mkPage pid _ _)).
  cbn [Storage.id]. by rewrite Hp.
Qed.

(** The state when the clock has reached [t]. *)
Lemma fireDue_settled fuel t w :
  (length (timers w) <= fuel)%nat -> tracked w -> pageOpen w ->
  let w' := fireDue fuel t w in
  (forall tm, tm ∈ timers w' -> t < timer_due tm)
  /\ tracked w' /\ pageOpen w' /\ now w' <= Z.max (now w) t
  /\ now w <= now w'.
Proof.
  revert w. induction fuel as [|fuel IH]; intros w Hlen Htr Hop; simpl.
  - destruct (timers w) eqn:E; simpl in Hlen; [|lia].
    repeat split; [|done|done|lia|lia].
    by intros ? ?%elem_of_nil.
  - destruct (earliest (timers w)) as [tm|] eqn:E.
    + destruct (Z.leb_spec (timer_due tm) t) as [Hdue|Hdue].
      * set (w1 := with_now _ _ w).
        assert (tracked w1) as Htr1.
        { intros u Hu. apply clearTimeout_subseteq in Hu. by apply Htr. }
        destruct (IH (save w1)) as (H1 & H2 & H3 & H4 & H5).
        -- destruct (save_timers w1) as (-> & _). simpl.
           pose proof (clearTimeout_shorter tm (timers w)
                         (earliest_elem _ _ E)). lia.
        -- by apply save_tracked.
        -- by apply save_pageOpen.
        -- destruct (save_timers w1) as (_ & _ & Hn).
           rewrite Hn in H4, H5. simpl in H4, H5.
           repeat split; [done..|lia|lia].
      * repeat split; [|done|done|lia|lia].
        intros u Hu. pose proof (earliest_least _ _ _ E Hu). lia.
    + destruct (timers w) as [|u ts] eqn:Et.
      * repeat split; [|done|done|lia|lia].
        by intros ? ?%elem_of_nil.
      * simpl in E. by destruct (earliest ts) as [?|]; [destruct (_ <? _)|].
Qed.

Lemma advance_settled t w :
  tracked w -> pageOpen w -> now w <= t ->
  let w' := advance t w in
  (forall tm, tm ∈ timers w' -> t < timer_due tm)
  /\ tracked w' /\ pageOpen w' /\ now w' = t.
Proof.
  intros Htr Hop Hnow.
  destruct (fireDue_settled (length (timers w)) t w)
    as (H1 & H2 & H3 & H4 & H5); [done..|].
  unfold advance. simpl. repeat split; [done..|lia].
Qed.

(** A keystroke, once nothing is due, cancels what was scheduled and
    schedules one write. *)
Lemma onInput_scheduled index value t w :
  tracked w -> now w = t ->
  scheduled t (onInput index value w)
  /\ saved (onInput index value w) = saved w
  /\ pages (onInput index value w) = pages w
  /\ currentPageId (onInput index value w) = currentPageId w.
Proof.
  intros Htr Hnow. unfold onInput, debouncedSave, scheduled. simpl.
  repeat split; [done| |done..].
  exists (nextTimerId w). split; [|done]. rewrite Hnow.
  destruct (saveTimeout w) as [h|] eqn:E.
  - assert (clearTimeout h (timers w) = []) as ->; [|done].
    apply clearTimeout_all. intros tm Hin. apply Htr in Hin. congruence.
  - destruct (timers w) as [|tm ts] eqn:Et; [done|].
    assert (tm ∈ timers w) as Hin by (rewrite Et; by left).
    apply Htr in Hin. congruence.
Qed.

Lemma scheduled_tracked t w : scheduled t w -> tracked w.
Proof.
  intros (_ & h & Ht & Hs) tm. rewrite Ht, Hs.
  by intros ->%list_elem_of_singleton.
Qed.

(** Before the timer is due, time just passes. *)
Lemma scheduled_advance_before t T w :
  scheduled t w -> T < t + 500 ->
  advance T w = with_now (Z.max t T) (timers w) w.
Proof.
  intros (Hn & h & Ht & Hs) HT. rewrite advance_idle; [by rewrite Hn|].
  rewrite Ht. by intros tm ->%list_elem_of_singleton.
Qed.

(** Once the timer is due, [save] runs, once. *)
Lemma scheduled_advance_after t T w :
  scheduled t w -> t + 500 <= T ->
  advance T w = with_now T [] (save (with_now (t + 500) [] w)).
Proof.
  intros (Hn & h & Ht & Hs) HT.
  assert (clearTimeout h [mkTimer h (t + 500)] = []) as Hc.
  { apply clearTimeout_all. by intros tm ->%list_elem_of_singleton. }
  unfold advance. rewrite Ht. cbn [length fireDue]. rewrite Ht.
  cbn [earliest timer_due timer_id].
  destruct (Z.leb_spec (t + 500) T); [|lia].
  rewrite Hc, Hn. rewrite (Z.max_r t (t + 500)) by lia.
  destruct (save_timers (with_now (t + 500) [] w)) as (-> & _ & ->).
  cbn. by rewrite (Z.max_r (t + 500) T) by lia.
Qed.

(** The keystrokes after the first. *)
Lemma typeKeys_scheduled index keys t w :
  scheduled t w -> spaced t keys ->
  scheduled (lastTime t keys) (typeKeys index keys w)
  /\ saved (typeKeys index keys w) = saved w
  /\ pages (typeKeys index keys w) = pages w
  /\ currentPageId (typeKeys index keys w) = currentPageId w.
Proof.
  revert t w. induction keys as [|[t' v] keys IH]; intros t w Hs Hsp.
  - done.
  - destruct Hsp as [Ht' Hsp]. simpl in Ht', Hsp.
    unfold typeKeys, lastTime. simpl foldl.
    rewrite (scheduled_advance_before t t' w) by (done || lia).
    rewrite Z.max_r by lia.
    set (w1 := with_now t' (timers w) w).
    destruct (onInput_scheduled index v t' w1) as (H1 & H2 & H3 & H4);
      [exact (scheduled_tracked t w Hs)|done|].
    destruct (IH t' (onInput index v w1) H1 Hsp) as (I1 & I2 & I3 & I4).
    unfold typeKeys, lastTime in *. split; [done|].
    by rewrite I2, I3, I4, H2, H3, H4.
Qed.

Lemma save_writes_once w :
  pageOpen w ->
  exists page,
    saved (save w) = saved w ++ [page]
    /\ Storage.content page = serialize (blocks w).
Proof.
  intros (pid & page & Hc & Ht & Hp).
  rewrite (save_stored w pid page Hc Ht Hp). by eexists.
Qed.

Lemma spaced_prefix t keys keys' : spaced t (keys ++ keys') -> spaced t keys.
Proof.
  revert t. induction keys as [|k keys IH]; intros t; simpl; [done|].
  intros [? ?]. split; [done|]. by apply IH.
Qed.

Lemma lastTime_snoc t keys k : lastTime t (keys ++ [k]) = fst k.
Proof. unfold lastTime. by rewrite foldl_app. Qed.

(** A whole run, from a state in which the editor's timers are tracked. *)
Lemma typeKeys_run index w t1 v1 rest :
  tracked w -> pageOpen w -> now w <= t1 -> spaced t1 rest ->
  let wN := typeKeys index ((t1, v1) :: rest) w in
  scheduled (lastTime t1 rest) wN
  /\ saved wN = saved (advance t1 w)
  /\ pageOpen wN.
Proof.
  intros Htr Hop Hnow Hsp.
  destruct (advance_settled t1 w Htr Hop Hnow) as (_ & Htr1 & Hop1 & Hn1).
  destruct (onInput_scheduled index v1 t1 (advance t1 w) Htr1 Hn1)
    as (H1 & H2 & H3 & H4).
  destruct (typeKeys_scheduled index rest t1 _ H1 Hsp)
    as (I1 & I2 & I3 & I4).
  change (typeKeys index ((t1, v1) :: rest) w)
    with (typeKeys index rest (onInput index v1 (advance t1 w))).
  cbv zeta. split; [done|]. split; [by rewrite I2|].
  destruct Hop1 as (pid & page & Hc & Ht & Hp).
  exists pid, page. by rewrite I3, I4, H3, H4.
Qed.

End Debounce.

(** ** The conditions of the debounce property hold while a page is open *)

Section Operating.
Implicit Types (w : State).

Lemma operating_save w : operating w -> operating (save w).
Proof.
  intros [? ?]. split; [by apply save_tracked|by apply save_pageOpen].
Qed.

Lemma operating_debouncedSave w : operating w -> operating (debouncedSave w).
Proof.
  intros [Htr Hop]. split; [|done].
  destruct (onInput_scheduled 0 [] (now w) w Htr eq_refl) as (H & _).
  exact (scheduled_tracked _ _ H).
Qed.

Lemma operating_finishEditing w : operating w -> operating (finishEditing w).
Proof.
  intros H. unfold finishEditing. destruct (_ <? 0); [done|].
  by apply operating_save.
Qed.

Lemma operating_editBlock i w : operating w -> operating (editBlock i w).
Proof.
  intros H%operating_finishEditing. unfold editBlock.
  by destruct (_ || _).
Qed.

Lemma operating_addBlock i c w : operating w -> operating (addBlock i c w).
Proof. intros H. by apply operating_debouncedSave. Qed.

Lemma operating_deleteBlock i w :
  operating w -> operating (state_of (deleteBlock i w)).
Proof.
  intros H. unfold deleteBlock. destruct (_ <=? 1).
  - by destruct (blocks w).
  - by apply operating_debouncedSave.
Qed.

Lemma operating_deleteEach indices w :
  operating w -> operating (state_of (deleteEach indices w)).
Proof.
  revert w. induction indices as [|i rest IH]; intros w H; simpl; [done|].
  destruct (_ >? 1); [by apply IH|].
  destruct (blocks w); [done|]. by apply IH.
Qed.

Lemma operating_perform op w :
  operating w -> operating (state_of (perform op w)).
Proof.
  intros H. destruct op; simpl.
  - by apply operating_editBlock.
  - by apply operating_finishEditing.
  - unfold onKeydown.
    repeat match goal with
    | |- context [if ?b then _ else _] => destruct b
    end; simpl;
    try (by repeat first [ apply operating_editBlock
                         | apply operating_addBlock
                         | apply operating_finishEditing ]).
    pose proof (operating_deleteBlock index w H) as H'.
    destruct (deleteBlock index w); simpl in *; [|done].
    by apply operating_editBlock.
  - by apply operating_debouncedSave.
  - by apply operating_addBlock.
  - by apply operating_deleteBlock.
  - done.
  - unfold deleteSelectedBlocks. destruct (selectedBlocks w) eqn:E; [done|].
    rewrite <- E.
    pose proof (operating_deleteEach (sort_desc (selectedBlocks w)) w H)
      as H'.
    destruct (deleteEach _ w); simpl in *; [|done].
    by apply operating_save.
  - unfold insertAtCursor. destruct (_ >=? 0).
    + destruct (nth_Z _ _); simpl; [|done].
      by apply operating_debouncedSave, operating_editBlock,
               operating_finishEditing.
    + destruct (_ >? 0); simpl;
        by repeat first [ apply operating_debouncedSave
                        | apply operating_addBlock ].
  - destruct H as [Htr Hop].
    destruct (fireDue_settled (length (timers w)) t w)
      as (_ & H2 & H3 & _); [done..|].
    by split.
Qed.

(** Opening a stored page and working on it keeps the editor in the
    conditions of the debounce property. *)
Lemma operating_run ops w : operating w -> operating (run ops w).
Proof.
  revert w. induction ops as [|op ops IH]; intros w H; [done|].
  apply IH. by apply operating_perform.
Qed.

End Operating.

(** C7. In a run of keystrokes in a block's textarea, each less than 500ms
    after the one before, every keystroke leaves exactly one write
    scheduled, 500ms after itself, in place of the one scheduled before;
    no write happens during the run or before the 500ms after the last
    keystroke have passed, and then exactly one happens and none remains
    scheduled. *)
Theorem debounce_coalesces (w : State) (index : Z)
    (t1 : Z) (v1 : jsstring) (rest : list (Z * jsstring)) :
  tracked w -> pageOpen w -> now w <= t1 -> spaced t1 rest ->
  let keys := (t1, v1) :: rest in
  let tN := lastTime t1 rest in
  let wN := typeKeys index keys w in
  (forall pre k post, keys = pre ++ k :: post ->
     exists h, timers (typeKeys index (pre ++ [k]) w)
               = [mkTimer h (fst k + 500)])
  /\ saved wN = saved (advance t1 w)
  /\ (forall T, T < tN + 500 -> saved (advance T wN) = saved wN)
  /\ (forall T, tN + 500 <= T ->
        timers (advance T wN) = []
        /\ exists page,
             saved (advance T wN) = saved wN ++ [page]
             /\ Storage.content page = serialize (blocks wN)).
Proof.
  intros Htr Hop Hnow Hsp keys tN wN.
  destruct (typeKeys_run index w t1 v1 rest Htr Hop Hnow Hsp)
    as (Hsch & Hsaved & HopN).
  fold keys wN tN in Hsch, Hsaved, HopN.
  split; [|split; [done|split]].
  - intros pre k post E. subst keys.
    destruct pre as [|k1 pre]; simpl in E.
    + injection E as E1 E2. subst k.
      destruct (typeKeys_run index w t1 v1 [] Htr Hop Hnow I)
        as ((_ & h & Ht & _) & _). by exists h.
    + injection E as E1 E2. subst k1 rest.
      assert (spaced t1 (pre ++ [k])) as Hpre.
      { apply (spaced_prefix _ _ post). by rewrite <- app_assoc. }
      destruct (typeKeys_run index w t1 v1 (pre ++ [k]) Htr Hop Hnow Hpre)
        as ((_ & h & Ht & _) & _).
      rewrite lastTime_snoc in Ht. by exists h.
  - intros T HT. by rewrite (scheduled_advance_before tN T wN).
  - intros T HT. rewrite (scheduled_advance_after tN T wN) by done.
    split; [done|]. cbn [saved with_now].
    apply (save_writes_once (with_now (tN + 500) [] wN)), HopN.
Qed.

(** Three keystrokes at 0ms, 200ms and 600ms on the open page: the one
    write is due at 1100ms. *)
Lemma debounce_coalesces_witness :
  (forall pre k post, threeKeys = pre ++ k :: post ->
     exists h, timers (typeKeys 0 (pre ++ [k]) openedPage)
               = [mkTimer h (fst k + 500)])
  /\ saved (typeKeys 0 threeKeys openedPage) = saved (advance 0 openedPage)
  /\ (forall T, T < 600 + 500 ->
        saved (advance T (typeKeys 0 threeKeys openedPage))
        = saved (typeKeys 0 threeKeys openedPage))
  /\ (forall T, 600 + 500 <= T ->
        timers (advance T (typeKeys 0 threeKeys openedPage)) = []
        /\ exists page,
             saved (advance T (typeKeys 0 threeKeys openedPage))
             = saved (typeKeys 0 threeKeys openedPage) ++ [page]
             /\ Storage.content page
                = serialize (blocks (typeKeys 0 threeKeys openedPage))).
Proof.
  apply (debounce_coalesces openedPage 0 0 (lit "a")
           [(200, lit "ab"); (600, lit "abc")]).
  - intros tm Hin. by apply elem_of_nil in Hin.
  - exists (lit "id_1"). eexists. repeat split.
  - simpl. lia.
  - simpl. lia.
Defined.

(** ** The link resolver *)

Section ResolverFacts.

Variable toLowerCase : jsstring -> jsstring.

Lemma findPageByTitle_Some t pages page :
  Linking.findPageByTitle toLowerCase t pages = Some page ->
  page ∈ pages /\ Linking.sameTitle toLowerCase (Storage.title page) t.
Proof.
  unfold Linking.findPageByTitle. intros H.
  apply find_some in H as [Hin Heq].
  split; [by apply list_elem_of_In|].
  by apply bool_decide_eq_true in Heq.
Qed.

Lemma findPageByTitle_None t pages :
  Linking.findPageByTitle toLowerCase t pages = None ->
  forall page, page ∈ pages -> ~ Linking.sameTitle toLowerCase (Storage.title page) t.
Proof.
  unfold Linking.findPageByTitle. intros H page Hin.
  apply list_elem_of_In in Hin.
  pose proof (find_none _ _ H page Hin) as Hne.
  by apply bool_decide_eq_false in Hne.
Qed.

(** The page found is the first one whose title is the same. *)
Lemma findPageByTitle_first t pages page :
  Linking.findPageByTitle toLowerCase t pages = Some page ->
  exists before after,
    Storage.values pages = before ++ page :: after
    /\ forall earlier, earlier ∈ before ->
         ~ Linking.sameTitle toLowerCase (Storage.title earlier) t.
Proof.
  unfold Linking.findPageByTitle, Storage.values, Linking.sameTitle.
  induction pages as [|p ps IH]; [done|]. cbn [find].
  unfold JS.eqb at 1. case_bool_decide as E.
  - intros [= <-]. exists [], ps. split; [done|]. by intros ? ?%elem_of_nil.
  - intros (before & after & -> & Hb)%IH.
    exists (p :: before), after. split; [done|].
    intros earlier [-> | Hin]%elem_of_cons; [done|by apply Hb].
Qed.

End ResolverFacts.

(** C9 (as amended). [findPageByTitle] returns a stored page exactly when
    the title of some stored page equals the query once both are
    lower-cased and trimmed of surrounding whitespace; the page it returns
    is the first such page in storage order; otherwise it returns null. *)
Theorem findPageByTitle_spec (toLowerCase : jsstring -> jsstring)
    (t : jsstring) (pages : Storage.Pages) :
  ((exists page, Linking.findPageByTitle toLowerCase t pages = Some page)
   <-> (exists page, page ∈ pages
                     /\ Linking.sameTitle toLowerCase (Storage.title page) t))
  /\ (forall page, Linking.findPageByTitle toLowerCase t pages = Some page ->
        page ∈ pages /\ Linking.sameTitle toLowerCase (Storage.title page) t)
  /\ (forall page, Linking.findPageByTitle toLowerCase t pages = Some page ->
        exists before after,
          Storage.values pages = before ++ page :: after
          /\ forall earlier, earlier ∈ before ->
               ~ Linking.sameTitle toLowerCase (Storage.title earlier) t)
  /\ (Linking.findPageByTitle toLowerCase t pages = None
      <-> forall page, page ∈ pages ->
            ~ Linking.sameTitle toLowerCase (Storage.title page) t).
Proof.
  assert (forall page, page ∈ pages ->
            Linking.sameTitle toLowerCase (Storage.title page) t ->
            Linking.findPageByTitle toLowerCase t pages <> None) as Hfound.
  { intros page Hin Hsame Hnone.
    by apply (findPageByTitle_None _ _ _ Hnone page Hin). }
  split; [|split; [|split]].
  - split.
    + intros [page H]. exists page. by apply findPageByTitle_Some.
    + intros (page & Hin & Hsame).
      destruct (Linking.findPageByTitle toLowerCase t pages) as [p|] eqn:E;
        [by exists p|].
      by destruct (Hfound page Hin Hsame).
  - apply findPageByTitle_Some.
  - apply findPageByTitle_first.
  - split; [apply findPageByTitle_None|].
    intros Hall.
    destruct (Linking.findPageByTitle toLowerCase t pages) as [p|] eqn:E;
      [|done].
    apply findPageByTitle_Some in E as [Hin Hsame].
    by destruct (Hall p Hin).
Qed.

(** C9 (as stated) fails: the query [foo ] with a trailing space resolves to
    the page titled [foo], whose title differs from the query whatever the
    case of the letters. *)
Lemma findPageByTitle_ignores_whitespace :
  Linking.findPageByTitle Linking.asciiLower (lit "foo ") [fooPage]
  = Some fooPage
  /\ forall page, page ∈ [fooPage] ->
       Linking.asciiLower (Storage.title page)
       <> Linking.asciiLower (lit "foo ").
Proof.
  split; [done|]. intros page Hin.
  apply list_elem_of_singleton in Hin. by subst.
Qed.

(** ** Backlinks *)

Section BacklinksFacts.

Variable regexExec : jsstring -> jsstring -> nat -> option nat.

Lemma filterBacklinks_excludes source pageId lastIndex ps page :
  page ∈ Storage.filterBacklinks regexExec source pageId lastIndex ps ->
  page ∈ ps /\ Storage.id page <> pageId.
Proof.
  revert lastIndex.
  induction ps as [|p ps IH]; intros lastIndex; simpl.
  - by intros ?%elem_of_nil.
  - unfold JS.eqb. case_bool_decide as Hid; simpl.
    + intros [? ?]%IH. split; [by right|done].
    + destruct (regexExec _ _ _).
      * intros [-> | [? ?]%IH]%elem_of_cons; (split; [|done]).
        -- by left.
        -- by right.
      * intros [? ?]%IH. split; [by right|done].
Qed.

(** Where [getBacklinks] returns: the empty list for an id under which
    [pages[id]] finds nothing, and never the page of the given id. *)
Lemma getBacklinks_returns pageId pages :
  (Storage.getPage pageId pages = None ->
   Storage.getBacklinks regexExec pageId pages = Storage.Returns [])
  /\ (forall found page,
        Storage.getBacklinks regexExec pageId pages = Storage.Returns found ->
        page ∈ found -> Storage.id page <> pageId).
Proof.
  unfold Storage.getBacklinks. split; [by intros ->|].
  intros found page.
  destruct (Storage.getPage pageId pages) as [[target| |]|]; [|done..|].
  - intros [= <-]. by intros [_ ?]%filterBacklinks_excludes.
  - intros [= <-]. by intros ?%elem_of_nil.
Qed.

(** Under the name of an inherited member, and without a page of that
    name, [getBacklinks] raises. *)
Lemma getBacklinks_inherited pageId pages :
  (forall page, page ∈ Storage.values pages -> Storage.id page <> pageId) ->
  Storage.isInherited pageId = true ->
  Storage.getBacklinks regexExec pageId pages = Storage.Throws.
Proof.
  intros Hown%own_None Hin. unfold Storage.values in Hown.
  unfold Storage.getBacklinks.
  by destruct (getPage_inherited _ _ Hown Hin) as [-> | ->].
Qed.

(** [getBacklinks] raises for the names of inherited members that no
    page has, and for no other id. *)
Lemma getBacklinks_Throws pageId pages :
  Storage.getBacklinks regexExec pageId pages = Storage.Throws
  <-> Storage.own pageId pages = None /\ Storage.isInherited pageId = true.
Proof.
  unfold Storage.getBacklinks, Storage.getPage, Storage.isInherited.
  destruct (Storage.own pageId pages); [by split; [|intros [? _]]|].
  destruct (JS.eqb pageId Storage.protoKey); [done|].
  case_bool_decide; [done|by split; [|intros [_ ?]]].
Qed.

(** The call of [getBacklinks] at the end of [loadPage] returns when
    [openPage] has found the page: a stored page is stored under its id,
    and an inherited member has no id, so that the key looked up is the
    text of [undefined], which is no inherited name. *)
Lemma getBacklinks_of_opened pageId pages page :
  Storage.getPage pageId pages = Some (Storage.PageObject page) ->
  Storage.getBacklinks regexExec (Storage.id page) pages <> Storage.Throws.
Proof.
  intros Hp. rewrite (getPage_id _ _ _ Hp). rewrite getBacklinks_Throws.
  apply getPage_PageObject in Hp. intros [H _]. congruence.
Qed.

Lemma getBacklinks_of_undefined pages :
  Storage.getBacklinks regexExec (lit "undefined") pages <> Storage.Throws.
Proof. rewrite getBacklinks_Throws. by intros [_ ?]. Qed.

End BacklinksFacts.

(** C10. No stored page has the id [constructor], and [getBacklinks] does
    not return the empty list for it: [pages[pageId]] finds the function
    that every object inherits under that name, and the call raises a
    [TypeError]. So it does in the empty store and in a store that holds a
    page, whatever the regular-expression engine. *)
Theorem getBacklinks_raises_on_constructor
    (regexExec : jsstring -> jsstring -> nat -> option nat) :
  Storage.own (lit "constructor") [selfLinkPage] = None
  /\ Storage.getBacklinks regexExec (lit "constructor") [selfLinkPage]
     = Storage.Throws
  /\ Storage.getBacklinks regexExec (lit "constructor") []
     = Storage.Throws.
Proof.
  split; [done|].
  split; apply getBacklinks_inherited; try done.
  - intros page ->%list_elem_of_singleton. done.
  - by intros page ?%elem_of_nil.
Qed.

(** * Further properties *)

(** ** The page store *)

Section StoreFacts.
Implicit Types (page : Storage.Page) (ps : Storage.Pages) (pid : jsstring).

Lemma replaceProperty_keys page ps :
  map Storage.id (Storage.replaceProperty page ps) = map Storage.id ps.
Proof.
  induction ps as [|p ps IH]; [done|]. cbn [Storage.replaceProperty].
  destruct (JS.eqb (Storage.id p) (Storage.id page)) eqn:E.
  - apply eqb_eq in E. cbn [map]. by rewrite E.
  - cbn [map]. by rewrite IH.
Qed.

(** A new property under an array index goes behind the array indices
    below it that lead the store. *)
Lemma addIndexed_place n page ps :
  exists before after,
    Storage.addIndexed n page ps = before ++ page :: after
    /\ ps = before ++ after
    /\ (forall p, p ∈ before ->
          exists m, Storage.arrayIndex (Storage.id p) = Some m /\ (m < n)%N)
    /\ (forall p m, head after = Some p ->
          Storage.arrayIndex (Storage.id p) = Some m -> (n <= m)%N).
Proof.
  induction ps as [|p ps IH]; cbn [Storage.addIndexed].
  - exists [], []. split; [done|]. split; [done|].
    split; [by intros ? ?%elem_of_nil|done].
  - destruct (Storage.arrayIndex (Storage.id p)) as [m|] eqn:E.
    + destruct (N.ltb_spec m n) as [Hlt|Hge].
      * destruct IH as (before & after & -> & -> & Hb & Ha).
        exists (p :: before), after. split; [done|]. split; [done|].
        split; [|done].
        intros q [-> | Hin]%elem_of_cons; [by exists m|by apply Hb].
      * exists [], (p :: ps). split; [done|]. split; [done|].
        split; [by intros ? ?%elem_of_nil|].
        intros q m' [= <-]. rewrite E. by intros [= <-].
    + exists [], (p :: ps). split; [done|]. split; [done|].
      split; [by intros ? ?%elem_of_nil|].
      intros q m' [= <-]. by rewrite E.
Qed.

End StoreFacts.

(** X1. [savePage] gives an object without an id a generated one. The page
    is then what [getPage] finds under its id, unless the id is
    [__proto__] and the store has no such property: then nothing is
    stored. What is found under another id is found as before. A page
    that was stored keeps its place; a new one goes last, or, under an
    array index, behind the smaller array indices that lead the store. *)
Theorem savePage_then_getPage (stamp random : jsstring)
    (page : Storage.Page) (ps : Storage.Pages) :
  let freshId := Storage.generateId stamp random in
  let stored := fst (Storage.savePage freshId Storage.AnObject page ps) in
  let ps' := snd (Storage.savePage freshId Storage.AnObject page ps) in
  stored = (if truthy (Storage.id page) then page
            else Storage.mkPage freshId (Storage.title page)
                   (Storage.content page))
  /\ truthy (Storage.id stored) = true
  /\ (truthy (Storage.id page) = false ->
      Storage.getPage freshId ps' = Some (Storage.PageObject stored)
      /\ (Storage.own freshId ps = None -> ps' = ps ++ [stored]))
  /\ (Storage.id stored <> Storage.protoKey
      \/ Storage.own Storage.protoKey ps <> None ->
      Storage.getPage (Storage.id stored) ps'
      = Some (Storage.PageObject stored))
  /\ (Storage.id stored = Storage.protoKey ->
      Storage.own Storage.protoKey ps = None -> ps' = ps)
  /\ (forall pid, pid <> Storage.id stored ->
        Storage.getPage pid ps' = Storage.getPage pid ps)
  /\ (Storage.own (Storage.id stored) ps <> None ->
      map Storage.id ps' = map Storage.id ps)
  /\ (Storage.own (Storage.id stored) ps = None ->
      Storage.id stored <> Storage.protoKey ->
      exists before after,
        ps' = before ++ stored :: after /\ ps = before ++ after
        /\ match Storage.arrayIndex (Storage.id stored) with
           | None => after = []
           | Some n =>
               (forall p, p ∈ before ->
                  exists m, Storage.arrayIndex (Storage.id p) = Some m
                            /\ (m < n)%N)
               /\ (forall p m, head after = Some p ->
                     Storage.arrayIndex (Storage.id p) = Some m ->
                     (n <= m)%N)
           end).
Proof.
  intros freshId stored ps'. subst stored ps'.
  unfold Storage.savePage. cbn [fst snd].
  set (stored := if truthy (Storage.id page) then page else _).
  split; [done|].
  split; [subst stored; by destruct (truthy (Storage.id page)) eqn:E|].
  split; [|split; [|split; [|split; [|split]]]].
  - intros Hid. subst stored. rewrite Hid.
    destruct (generateId_not_inherited stamp random) as [Hproto _].
    split.
    + apply getPage_PageObject.
      apply (own_setProperty_same (Storage.mkPage freshId _ _)). by right.
    + intros Hown. unfold Storage.setProperty, Storage.hasOwn.
      cbn [Storage.id]. rewrite Hown. apply eqb_neq in Hproto.
      fold freshId in Hproto. rewrite Hproto.
      unfold Storage.addProperty. cbn [Storage.id].
      unfold freshId. by rewrite generateId_arrayIndex.
  - intros H. apply getPage_PageObject, own_setProperty_same.
    destruct H as [H | H]; [by right|].
    destruct (decide (Storage.id stored = Storage.protoKey)) as [-> | ?];
      [by left|by right].
  - intros Hid Hown. unfold Storage.setProperty, Storage.hasOwn.
    rewrite Hid, Hown. by rewrite eqb_refl.
  - intros pid Hne. by apply getPage_own, own_setProperty_other.
  - intros Hown. unfold Storage.setProperty.
    apply hasOwn_true in Hown. rewrite Hown. apply replaceProperty_keys.
  - intros Hown Hne. unfold Storage.setProperty, Storage.hasOwn.
    rewrite Hown. apply eqb_neq in Hne. rewrite Hne.
    unfold Storage.addProperty.
    destruct (Storage.arrayIndex (Storage.id stored)) as [n|].
    + destruct (addIndexed_place n stored ps)
        as (before & after & H1 & H2 & H3 & H4).
      by exists before, after.
    + exists ps, []. by rewrite app_nil_r.
Qed.

(** X2. [deletePage] answers false and leaves the store alone when
    [pages[id]] finds nothing. It answers true otherwise, also under the
    name of an inherited member that no page has, where the store stays
    as it is. No page has the id afterwards, and what is found under
    another id is found as before. *)
Theorem deletePage_spec (pid : jsstring) (ps : Storage.Pages) :
  (Storage.getPage pid ps = None ->
   Storage.deletePage pid ps = (ps, false))
  /\ (Storage.getPage pid ps <> None ->
      snd (Storage.deletePage pid ps) = true)
  /\ (Storage.own pid ps = None -> Storage.isInherited pid = true ->
      Storage.deletePage pid ps = (ps, true))
  /\ Storage.own pid (fst (Storage.deletePage pid ps)) = None
  /\ forall q, q <> pid ->
       Storage.getPage q (fst (Storage.deletePage pid ps))
       = Storage.getPage q ps.
Proof.
  unfold Storage.deletePage. split; [by intros ->|].
  split; [by destruct (Storage.getPage pid ps)|]. split; [|split].
  - intros Hown Hin.
    destruct (getPage_inherited _ _ Hown Hin) as [-> | ->];
      by rewrite removeProperty_absent.
  - destruct (Storage.getPage pid ps) as [found|] eqn:E; cbn [fst].
    + apply own_removeProperty_same.
    + by apply getPage_None in E as [? _].
  - intros q Hne. destruct (Storage.getPage pid ps); cbn [fst]; [|done].
    by apply getPage_own, own_removeProperty_other.
Qed.

(** One stored page: deleted, and deleted under an id that it does not
    have, and under the name of an inherited function. *)
Lemma deletePage_spec_witness :
  snd (Storage.deletePage (lit "id_1") [fooPage]) = true
  /\ Storage.deletePage (lit "id_2") [fooPage] = ([fooPage], false)
  /\ Storage.deletePage (lit "toString") [fooPage] = ([fooPage], true).
Proof.
  destruct (deletePage_spec (lit "id_1") [fooPage]) as (_ & H & _).
  destruct (deletePage_spec (lit "id_2") [fooPage]) as (H' & _).
  destruct (deletePage_spec (lit "toString") [fooPage]) as (_ & _ & H'' & _).
  split; [by apply H|]. split; [by apply H'|by apply H''].
Defined.

(** ** Substrings *)

Section Substrings.
Implicit Types (s sub p : jsstring).

Lemma startsWith_app s p : startsWith (p ++ s) p = true.
Proof.
  induction p as [|c p IH]; simpl; [by destruct s|]. by rewrite N.eqb_refl.
Qed.

Lemma startsWith_inv s p :
  startsWith s p = true -> exists post, s = p ++ post.
Proof.
  revert s. induction p as [|c p IH]; intros s; simpl.
  - intros _. by exists s.
  - destruct s as [|d s]; [done|].
    intros [Hc Hp]%andb_true_iff. apply N.eqb_eq in Hc. subst d.
    destruct (IH s Hp) as [post ->]. by exists post.
Qed.

Lemma includes_nil s : includes s [] = true.
Proof. by destruct s. Qed.

Lemma includes_cons c s sub :
  includes (c :: s) sub = startsWith (c :: s) sub || includes s sub.
Proof. done. Qed.

(** [includes] finds [sub] exactly when it occurs somewhere in [s]. *)
Lemma includes_occurs s sub :
  includes s sub = true <-> exists pre post, s = pre ++ sub ++ post.
Proof.
  split.
  - induction s as [|c s IH].
    + destruct sub; [intros _; by exists [], []|done].
    + rewrite includes_cons. intros [H|H]%orb_true_iff.
      * apply startsWith_inv in H as [post ->]. by exists [], post.
      * destruct (IH H) as (pre & post & ->). by exists (c :: pre), post.
  - intros (pre & post & ->).
    induction pre as [|c pre IH].
    + change ([] ++ sub ++ post) with (sub ++ post).
      destruct (sub ++ post) as [|c r] eqn:E.
      * apply app_eq_nil in E as [-> _]. done.
      * by rewrite includes_cons, <- E, startsWith_app.
    + change ((c :: pre) ++ sub ++ post) with (c :: (pre ++ sub ++ post)).
      rewrite includes_cons, IH. apply orb_true_r.
Qed.

End Substrings.

(** ** Searching the store *)

(** X3. [searchPages] returns, in the order of the store, the stored pages
    in whose lower-cased title or content the lower-cased query occurs;
    when lower-casing keeps the empty string, as it does, the empty query
    returns every stored page. *)
Theorem searchPages_spec (toLowerCase : jsstring -> jsstring)
    (query : jsstring) (ps : Storage.Pages) :
  (forall page,
     page ∈ Storage.searchPages toLowerCase query ps <->
     page ∈ ps
     /\ ((exists pre post,
            toLowerCase (Storage.title page)
            = pre ++ toLowerCase query ++ post)
         \/ (exists pre post,
               toLowerCase (Storage.content page)
               = pre ++ toLowerCase query ++ post)))
  /\ Storage.searchPages toLowerCase query ps `sublist_of` ps
  /\ (toLowerCase [] = [] -> query = [] ->
      Storage.searchPages toLowerCase query ps = ps).
Proof.
  unfold Storage.searchPages, Storage.values. split; [|split].
  - intros page. rewrite list_elem_of_In, filter_In, <- list_elem_of_In.
    by rewrite orb_true_iff, !includes_occurs.
  - induction ps as [|p ps IH]; simpl; [done|].
    destruct (_ || _); by constructor.
  - intros Hlow ->. rewrite Hlow.
    induction ps as [|p ps IH]; simpl; [done|].
    by rewrite includes_nil, IH.
Qed.

(** The empty query on a store of one page. *)
Lemma searchPages_spec_witness :
  Storage.searchPages Linking.asciiLower [] [fooPage] = [fooPage].
Proof.
  by apply (searchPages_spec Linking.asciiLower [] [fooPage]).
Defined.

(** X4. [getSuggestions] gives nothing for a query of fewer than two code
    units, never more than five pages, and only stored pages in whose
    lower-cased title the lower-cased query occurs. *)
Theorem getSuggestions_spec (toLowerCase : jsstring -> jsstring)
    (query : jsstring) (ps : Storage.Pages) :
  ((length query < 2)%nat ->
   Linking.getSuggestions toLowerCase query ps = [])
  /\ (length (Linking.getSuggestions toLowerCase query ps) <= 5)%nat
  /\ forall page,
       page ∈ Linking.getSuggestions toLowerCase query ps ->
       page ∈ ps
       /\ exists pre post,
            toLowerCase (Storage.title page)
            = pre ++ toLowerCase query ++ post.
Proof.
  unfold Linking.getSuggestions, Storage.values. split; [|split].
  - intros H. destruct (Nat.ltb_spec (length query) 2); [|lia].
    by rewrite orb_true_r.
  - destruct (_ || _); simpl; [lia|]. rewrite length_take. lia.
  - intros page. destruct (_ || _); [by intros ?%elem_of_nil|].
    intros Hin. apply elem_of_take in Hin as (i & Hin & _).
    apply list_elem_of_lookup_2 in Hin.
    apply list_elem_of_In, filter_In in Hin as [Hin Hq].
    split; [by apply list_elem_of_In|]. by apply includes_occurs.
Qed.

(** A one-letter query. *)
Lemma getSuggestions_spec_witness :
  Linking.getSuggestions Linking.asciiLower (lit "f") [fooPage] = [].
Proof.
  apply (getSuggestions_spec Linking.asciiLower (lit "f") [fooPage]).
  simpl. lia.
Defined.

(** ** Escaping a title for the backlink pattern *)

Lemma isRegexSpecial_backslash c :
  Storage.isRegexSpecial c = false -> (c =? 92)%N = false.
Proof.
  intros H. destruct (N.eqb_spec c 92); [|done]. by subst.
Qed.

Lemma literalOf_app_escaped s rest r :
  Storage.literalOf rest = Some r ->
  Storage.literalOf (Storage.escapeRegex s ++ rest) = Some (s ++ r).
Proof.
  intros Hr. induction s as [|c s IH]; simpl; [done|].
  destruct (Storage.isRegexSpecial c) eqn:E; simpl.
  - by rewrite E, IH.
  - by rewrite (isRegexSpecial_backslash c E), E, IH.
Qed.

(** X5. The pattern source [getBacklinks] builds from a title holds no
    unescaped special character and spells the title between two pairs of
    brackets; so does [escapeRegex] for any string alone. *)
Theorem escapeRegex_literal (s : jsstring) :
  Storage.literalOf (Storage.escapeRegex s) = Some s
  /\ Storage.literalOf (Storage.linkPatternSource s)
     = Some (lit "[[" ++ s ++ lit "]]").
Proof.
  split.
  - rewrite <- (app_nil_r (Storage.escapeRegex s)).
    rewrite (literalOf_app_escaped s [] []) by done. by rewrite app_nil_r.
  - unfold Storage.linkPatternSource.
    change (lit "\[\[" ++ Storage.escapeRegex s ++ lit "\]\]")
      with (Storage.escapeRegex (lit "[[")
            ++ Storage.escapeRegex s ++ Storage.escapeRegex (lit "]]")).
    rewrite (literalOf_app_escaped (lit "[[") _ (s ++ lit "]]")); [done|].
    apply literalOf_app_escaped with (rest := Storage.escapeRegex (lit "]]"))
      (r := lit "]]"). done.
Qed.

(** ** Links in a page's content *)

Section LinkPattern.
Implicit Types (s t pre post : jsstring).

Lemma absent_forallb (c : char) s :
  forallb (fun d => negb (d =? c)%N) s = true -> c ∉ s.
Proof.
  induction s as [|d s IH]; simpl; [by intros _ ?%elem_of_nil|].
  intros [Hd Hs]%andb_true_iff. apply not_elem_of_cons. split; [|by apply IH].
  apply negb_true_iff, N.eqb_neq in Hd. congruence.
Qed.

Lemma spanName_app t post :
  93%N ∉ t ->
  Linking.spanName (t ++ 93%N :: post) = (t, 93%N :: post).
Proof.
  induction t as [|c t IH]; intros Hin; simpl; [done|].
  apply not_elem_of_cons in Hin as [Hc Ht].
  destruct (N.eqb_spec c 93); [congruence|]. by rewrite IH.
Qed.

Lemma matchLinkAt_link t post :
  t <> [] -> 93%N ∉ t ->
  Linking.matchLinkAt (LinkInsertion.linkText t ++ post)
  = Some (t, (length t + 4)%nat).
Proof.
  intros Hne Hin. unfold LinkInsertion.linkText.
  change (lit "[[" ++ t ++ lit "]]") with (91%N :: 91%N :: t ++ lit "]]").
  simpl. rewrite <- app_assoc. simpl app.
  rewrite spanName_app by done. by destruct t.
Qed.

Lemma matchLinkAt_other c s :
  c <> 91%N -> Linking.matchLinkAt (c :: s) = None.
Proof.
  intros Hc. simpl. destruct s; [done|].
  by destruct (N.eqb_spec c 91).
Qed.

Lemma linkNamesFrom_skip a s :
  Linking.linkNamesFrom (length a) (a ++ s) = Linking.linkNamesFrom 0 s.
Proof.
  induction a as [|c a IH]; simpl; [|done].
  by destruct s.
Qed.

Lemma linkNames_plain pre s :
  91%N ∉ pre ->
  Linking.linkNames (pre ++ s) = Linking.linkNames s.
Proof.
  unfold Linking.linkNames.
  induction pre as [|c pre IH]; intros Hin; [done|].
  apply not_elem_of_cons in Hin as [Hc Hpre].
  change ((c :: pre) ++ s) with (c :: (pre ++ s)).
  cbn [Linking.linkNamesFrom].
  rewrite matchLinkAt_other by done. by apply IH.
Qed.

End LinkPattern.

(** X6. In a text, after a stretch without an opening bracket, the link
    that [insertLink] writes for a title that is not empty and holds no
    closing bracket is found as a link to that title, and the search goes
    on behind it. *)
Theorem linkNames_inserted_link (pre t post : jsstring) :
  91%N ∉ pre -> t <> [] -> 93%N ∉ t ->
  Linking.linkNames (pre ++ LinkInsertion.linkText t ++ post)
  = t :: Linking.linkNames post.
Proof.
  intros Hpre Hne Ht. rewrite linkNames_plain by done.
  unfold Linking.linkNames.
  assert (exists s', LinkInsertion.linkText t ++ post = 91%N :: s'
                     /\ s' = (91%N :: t ++ lit "]]") ++ post) as (s' & E & Es).
  { eexists. split; [|done]. reflexivity. }
  pose proof (matchLinkAt_link t post Hne Ht) as Hm. rewrite E in *.
  cbn [Linking.linkNamesFrom]. rewrite Hm, Es. f_equal.
  replace (length t + 4 - 1)%nat with (length (91%N :: t ++ lit "]]")).
  - apply linkNamesFrom_skip.
  - simpl. rewrite length_app. simpl. lia.
Qed.

(** The link to the page [Home] after the words [see ]. *)
Lemma linkNames_inserted_link_witness :
  Linking.linkNames (lit "see " ++ LinkInsertion.linkText (lit "Home") ++ [])
  = [lit "Home"].
Proof.
  apply (linkNames_inserted_link (lit "see ") (lit "Home") []).
  - by apply absent_forallb.
  - discriminate.
  - by apply absent_forallb.
Defined.

(** ** Outgoing links *)

Section OutgoingLinks.
Variable toLowerCase : jsstring -> jsstring.

Lemma linkedPage_elem pageId ps name page :
  page ∈ Linking.linkedPage toLowerCase pageId ps name ->
  page ∈ ps /\ Storage.id page <> pageId
  /\ Linking.sameTitle toLowerCase (Storage.title page) name.
Proof.
  unfold Linking.linkedPage.
  destruct (Linking.findPageByTitle toLowerCase name ps) as [p|] eqn:E;
    [|by intros ?%elem_of_nil].
  apply findPageByTitle_Some in E as [Hin Hs].
  unfold JS.eqb. case_bool_decide; simpl; [by intros ?%elem_of_nil|].
  by intros ->%list_elem_of_singleton.
Qed.

End OutgoingLinks.

(** X7. [getOutgoingLinks] returns nothing for an id that is not stored;
    every page it returns is a stored page other than the page itself,
    whose title is, lower-cased and trimmed, the name of a link in the
    page's content. *)
Theorem getOutgoingLinks_spec (toLowerCase : jsstring -> jsstring)
    (pageId : jsstring) (ps : Storage.Pages) :
  ((forall page,
      Storage.getPage pageId ps <> Some (Storage.PageObject page)) ->
   Linking.getOutgoingLinks toLowerCase pageId ps = [])
  /\ forall linked,
       linked ∈ Linking.getOutgoingLinks toLowerCase pageId ps ->
       linked ∈ ps /\ Storage.id linked <> pageId
       /\ exists page name,
            Storage.getPage pageId ps = Some (Storage.PageObject page)
            /\ name ∈ Linking.linkNames (Storage.content page)
            /\ Linking.sameTitle toLowerCase (Storage.title linked) name.
Proof.
  unfold Linking.getOutgoingLinks. split.
  - intros H.
    destruct (Storage.getPage pageId ps) as [[page| |]|]; try done.
    by destruct (H page).
  - intros linked.
    destruct (Storage.getPage pageId ps) as [[page| |]|];
      try by intros ?%elem_of_nil.
    intros Hin. apply list_elem_of_In, in_concat in Hin as (l & Hl & Hin).
    apply in_map_iff in Hl as (name & <- & Hname).
    apply list_elem_of_In in Hin, Hname.
    apply linkedPage_elem in Hin as (H1 & H2 & H3).
    split; [done|]. split; [done|]. by exists page, name.
Qed.

(** ** The keys of the editing protocol *)

Section Keys.
Implicit Types (w : State) (pre post : list Block) (b : Block).

Lemma spliceRemove_middle {A} (l1 l2 : list A) x :
  spliceRemove (Z.of_nat (length l1)) (l1 ++ x :: l2) = l1 ++ l2.
Proof.
  unfold spliceRemove, spliceStart.
  destruct (Z.ltb_spec (Z.of_nat (length l1)) 0); [lia|].
  rewrite length_app. simpl length. rewrite Z.min_l by lia.
  rewrite Nat2Z.id. apply delete_middle.
Qed.

Lemma finishEditing_editing w :
  0 <= currentBlockIndex w ->
  finishEditing w = save (with_currentBlockIndex (-1) w).
Proof.
  intros H. unfold finishEditing.
  by destruct (Z.ltb_spec (currentBlockIndex w) 0); [lia|].
Qed.

End Keys.

(** X8. Enter without shift, with the cursor anywhere but at the end of
    the textarea's text, puts two blocks in the place of the edited one:
    the text before the cursor and the text behind it, which together are
    the text; the second one is being edited. *)
Theorem enter_splits_at_cursor (w : State) (pre post : list Block)
    (b : Block) (value : jsstring) (selectionStart : nat) :
  selectionStart <> length value ->
  exists w',
    onKeydown (mkKeyEvent Enter false) (Z.of_nat (length pre)) value
      selectionStart
      (with_currentBlockIndex (Z.of_nat (length pre))
         (with_blocks (pre ++ b :: post) w))
    = Normal w'
    /\ blocks w'
       = pre ++ mkBlock (substring_to selectionStart value)
             :: mkBlock (substring_from selectionStart value) :: post
    /\ substring_to selectionStart value
       ++ substring_from selectionStart value = value
    /\ currentBlockIndex w' = Z.of_nat (length pre) + 1.
Proof.
  intros Hsel. unfold onKeydown. simpl isKey. simpl negb. simpl andb.
  destruct (Nat.eqb_spec selectionStart (length value)); [done|].
  eexists. split; [reflexivity|].
  set (w1 := addBlock _ _ _).
  assert (blocks w1
          = pre ++ mkBlock (substring_to selectionStart value)
                :: mkBlock (substring_from selectionStart value) :: post)
    as Hb.
  { unfold w1, addBlock. rewrite debouncedSave_blocks. simpl blocks at 1.
    rewrite finishEditing_blocks. simpl blocks.
    rewrite alter_Z_middle. apply spliceInsert_after. }
  split; [by rewrite editBlock_blocks|].
  split; [apply take_drop|].
  apply editBlock_in_range. rewrite Hb, length_app. simpl. lia.
Qed.

(** The text [ab] split behind its first letter. *)
Lemma enter_splits_at_cursor_witness :
  exists w',
    onKeydown (mkKeyEvent Enter false) 0 (lit "ab") 1
      (with_currentBlockIndex 0 (with_blocks ([] ++ [mkBlock (lit "ab")])
                                   openedPage))
    = Normal w'
    /\ blocks w' = [mkBlock (lit "a"); mkBlock (lit "b")]
    /\ lit "a" ++ lit "b" = lit "ab"
    /\ currentBlockIndex w' = 1.
Proof.
  apply (enter_splits_at_cursor openedPage [] [] (mkBlock (lit "ab"))
           (lit "ab") 1).
  simpl. lia.
Defined.

(** X9. Enter without shift with the cursor at the end of the text leaves
    the edited block as it is and puts an empty block behind it, which is
    being edited; Enter with shift changes nothing. *)
Theorem enter_at_end_adds_block (w : State) (pre post : list Block)
    (b : Block) (value : jsstring) :
  (exists w',
     onKeydown (mkKeyEvent Enter false) (Z.of_nat (length pre)) value
       (length value)
       (with_currentBlockIndex (Z.of_nat (length pre))
          (with_blocks (pre ++ b :: post) w))
     = Normal w'
     /\ blocks w' = pre ++ b :: mkBlock [] :: post
     /\ currentBlockIndex w' = Z.of_nat (length pre) + 1)
  /\ forall index selectionStart,
       onKeydown (mkKeyEvent Enter true) index value selectionStart w
       = Normal w.
Proof.
  split; [|done].
  unfold onKeydown. simpl isKey. simpl negb. simpl andb.
  rewrite Nat.eqb_refl.
  eexists. split; [reflexivity|].
  set (w1 := addBlock _ _ _).
  assert (blocks w1 = pre ++ b :: mkBlock [] :: post) as Hb.
  { unfold w1, addBlock. rewrite debouncedSave_blocks. simpl blocks at 1.
    rewrite finishEditing_blocks. simpl blocks. apply spliceInsert_after. }
  split; [by rewrite editBlock_blocks|].
  apply editBlock_in_range. rewrite Hb, length_app. simpl. lia.
Qed.

(** X10. Backspace in an empty textarea of a block that is not the first
    removes that block and nothing else, and the block before it is being
    edited; Backspace in a textarea with text, or in the first block,
    changes nothing. *)
Theorem backspace_removes_empty_block (w : State) (pre post : list Block)
    (b : Block) :
  pre <> [] ->
  (exists w',
     onKeydown (mkKeyEvent Backspace false) (Z.of_nat (length pre)) [] 0
       (with_currentBlockIndex (Z.of_nat (length pre))
          (with_blocks (pre ++ b :: post) w))
     = Normal w'
     /\ blocks w' = pre ++ post
     /\ currentBlockIndex w' = Z.of_nat (length pre) - 1)
  /\ (forall index value selectionStart,
        value <> [] ->
        onKeydown (mkKeyEvent Backspace false) index value selectionStart w
        = Normal w)
  /\ (forall value selectionStart,
        onKeydown (mkKeyEvent Backspace false) 0 value selectionStart w
        = Normal w).
Proof.
  intros Hpre. split; [|split].
  - assert (0 < length pre)%nat as Hlen by (destruct pre; simpl; [done|lia]).
    unfold onKeydown. simpl isKey. simpl negb. simpl andb.
    destruct (Z.gtb_spec (Z.of_nat (length pre)) 0); [|lia].
    unfold deleteBlock. simpl blocks.
    destruct (Z.leb_spec (Z.of_nat (length (pre ++ b :: post))) 1) as [Hl|Hl].
    { rewrite length_app in Hl. simpl in Hl. lia. }
    simpl andThen. eexists. split; [reflexivity|].
    rewrite editBlock_blocks. simpl blocks. rewrite spliceRemove_middle.
    split; [done|].
    apply editBlock_in_range. simpl blocks. rewrite length_app. lia.
  - intros index value sel Hv. unfold onKeydown. simpl.
    by destruct value.
  - intros value sel. unfold onKeydown. simpl. by rewrite andb_false_r.
Qed.

(** The empty second block of two. *)
Lemma backspace_removes_empty_block_witness :
  exists w',
    onKeydown (mkKeyEvent Backspace false) 1 [] 0
      (with_currentBlockIndex 1
         (with_blocks (doc ["abc"]%string ++ mkBlock [] :: []) openedPage))
    = Normal w'
    /\ blocks w' = doc ["abc"]%string ++ []
    /\ currentBlockIndex w' = 1 - 1.
Proof.
  apply (backspace_removes_empty_block openedPage (doc ["abc"]%string) []
           (mkBlock [])).
  discriminate.
Defined.

(** X11. The arrow keys never change the blocks. ArrowUp with the cursor at
    the start moves the edit to the block before, ArrowDown with the cursor
    at the end to the block behind, when the textarea's block has such a
    neighbour; at the first and at the last block they change nothing. *)
Theorem arrows_move_edit (w : State) (index : Z) (value : jsstring) :
  (forall k selectionStart,
     k = ArrowUp \/ k = ArrowDown ->
     exists w',
       onKeydown (mkKeyEvent k false) index value selectionStart w = Normal w'
       /\ blocks w' = blocks w)
  /\ (0 < index <= Z.of_nat (length (blocks w)) ->
      exists w',
        onKeydown (mkKeyEvent ArrowUp false) index value 0 w = Normal w'
        /\ currentBlockIndex w' = index - 1)
  /\ (0 <= index < Z.of_nat (length (blocks w)) - 1 ->
      exists w',
        onKeydown (mkKeyEvent ArrowDown false) index value (length value) w
        = Normal w'
        /\ currentBlockIndex w' = index + 1)
  /\ (index <= 0 ->
      onKeydown (mkKeyEvent ArrowUp false) index value 0 w = Normal w)
  /\ (Z.of_nat (length (blocks w)) - 1 <= index ->
      onKeydown (mkKeyEvent ArrowDown false) index value (length value) w
      = Normal w).
Proof.
  split; [|split; [|split; [|split]]].
  - intros k sel [-> | ->]; unfold onKeydown; simpl isKey; simpl andb.
    + destruct (Nat.eqb sel 0); [|by eexists].
      destruct (index >? 0); eexists; (split; [reflexivity|]); [|done].
      by rewrite editBlock_blocks, finishEditing_blocks.
    + destruct (Nat.eqb sel (length value)); [|by eexists].
      destruct (index <? _); eexists; (split; [reflexivity|]); [|done].
      by rewrite editBlock_blocks, finishEditing_blocks.
  - intros H. unfold onKeydown. simpl.
    destruct (Z.gtb_spec index 0); [|lia].
    eexists. split; [reflexivity|].
    apply editBlock_in_range. rewrite finishEditing_blocks. lia.
  - intros H. unfold onKeydown. simpl. rewrite Nat.eqb_refl.
    destruct (Z.ltb_spec index (Z.of_nat (length (blocks w)) - 1)); [|lia].
    eexists. split; [reflexivity|].
    apply editBlock_in_range. rewrite finishEditing_blocks. lia.
  - intros H. unfold onKeydown. simpl.
    by destruct (Z.gtb_spec index 0); [lia|].
  - intros H. unfold onKeydown. simpl. rewrite Nat.eqb_refl.
    by destruct (Z.ltb_spec index (Z.of_nat (length (blocks w)) - 1)); [lia|].
Qed.

(** ArrowUp from the second of two blocks. *)
Lemma arrows_move_edit_witness :
  exists w',
    onKeydown (mkKeyEvent ArrowUp false) 1 (lit "b") 0
      (editing 1 ["a"; "b"]%string) = Normal w'
    /\ currentBlockIndex w' = 1 - 1.
Proof.
  destruct (arrows_move_edit (editing 1 ["a"; "b"]%string) 1 (lit "b"))
    as (_ & H & _).
  apply H. simpl. lia.
Defined.

(** X12. [deleteBlock] does not end the edit: when the last of two or more
    blocks is being edited and is deleted, [currentBlockIndex] still names
    its position, and the next [insertAtCursor] raises and inserts
    nothing. *)
Theorem deleteBlock_leaves_stale_index (w : State) (pre : list Block)
    (b : Block) (text : jsstring) :
  pre <> [] ->
  exists w1,
    deleteBlock (Z.of_nat (length pre))
      (with_currentBlockIndex (Z.of_nat (length pre))
         (with_blocks (pre ++ [b]) w))
    = Normal w1
    /\ blocks w1 = pre
    /\ currentBlockIndex w1 = Z.of_nat (length pre)
    /\ insertAtCursor text w1 = TypeError w1.
Proof.
  intros Hpre.
  assert (0 < length pre)%nat as Hlen by (destruct pre; simpl; [done|lia]).
  unfold deleteBlock. simpl blocks.
  destruct (Z.leb_spec (Z.of_nat (length (pre ++ [b]))) 1) as [H|H].
  { rewrite length_app in H. simpl in H. lia. }
  eexists. split; [reflexivity|].
  assert (spliceRemove (Z.of_nat (length pre)) (pre ++ [b]) = pre) as Hb.
  { rewrite spliceRemove_middle. apply app_nil_r. }
  simpl blocks. simpl currentBlockIndex. rewrite Hb.
  split; [done|]. split; [done|].
  unfold insertAtCursor. simpl currentBlockIndex. simpl blocks.
  destruct (Z.geb_spec (Z.of_nat (length pre)) 0); [|lia].
  unfold nth_Z. destruct (Z.ltb_spec (Z.of_nat (length pre)) 0); [lia|].
  rewrite Nat2Z.id. by rewrite lookup_ge_None_2.
Qed.

(** The second of two blocks deleted while it is being edited. *)
Lemma deleteBlock_leaves_stale_index_witness :
  exists w1,
    deleteBlock 1
      (with_currentBlockIndex 1
         (with_blocks (doc ["a"]%string ++ [mkBlock (lit "b")]) openedPage))
    = Normal w1
    /\ blocks w1 = doc ["a"]%string
    /\ currentBlockIndex w1 = 1
    /\ insertAtCursor (lit "x") w1 = TypeError w1.
Proof.
  apply (deleteBlock_leaves_stale_index openedPage (doc ["a"]%string)
           (mkBlock (lit "b")) (lit "x")).
  discriminate.
Defined.

(** ** Deleting the selected blocks *)

Section SortDesc.
Implicit Types (l sel : list Z) (x i : Z).

Lemma insert_desc_elem x y l : y ∈ insert_desc x l <-> y = x \/ y ∈ l.
Proof.
  induction l as [|z l IH]; simpl.
  - rewrite list_elem_of_singleton, elem_of_nil. tauto.
  - destruct (z <? x); rewrite !elem_of_cons; [done|]. rewrite IH. tauto.
Qed.

Lemma insert_desc_length x l : length (insert_desc x l) = S (length l).
Proof.
  induction l as [|z l IH]; simpl; [done|].
  destruct (z <? x); simpl; by rewrite ?IH.
Qed.

Lemma insert_desc_descending x l :
  x ∉ l -> descending l -> descending (insert_desc x l).
Proof.
  intros Hx Hl. induction Hl as [|z l Hl IH Hz]; simpl.
  - repeat constructor.
  - apply not_elem_of_cons in Hx as [Hxz Hx].
    destruct (Z.ltb_spec z x).
    + constructor; [by constructor|].
      constructor; [done|]. eapply Forall_impl; [exact Hz|].
      simpl. intros; lia.
    + constructor; [by apply IH|].
      apply Forall_forall. intros y Hy%insert_desc_elem.
      destruct Hy as [-> | Hy]; [lia|].
      rewrite Forall_forall in Hz. by apply Hz.
Qed.

Lemma sort_desc_elem l y : y ∈ sort_desc l <-> y ∈ l.
Proof.
  induction l as [|x l IH]; simpl; [done|].
  rewrite insert_desc_elem, elem_of_cons, IH. tauto.
Qed.

Lemma sort_desc_length l : length (sort_desc l) = length l.
Proof.
  induction l as [|x l IH]; simpl; [done|].
  by rewrite insert_desc_length, IH.
Qed.

Lemma sort_desc_descending l : NoDup l -> descending (sort_desc l).
Proof.
  induction 1 as [|x l Hx Hl IH]; simpl; [constructor|].
  apply insert_desc_descending; [|done]. by rewrite sort_desc_elem.
Qed.

End SortDesc.

Section Unselected.
Implicit Types (sel rest : list Z) (bs : list Block) (i k : Z).

Lemma unselected_ext sel sel' k bs :
  (forall j, j ∈ sel <-> j ∈ sel') ->
  unselected sel k bs = unselected sel' k bs.
Proof.
  intros H. revert k. induction bs as [|b bs IH]; intros k; simpl; [done|].
  unfold set_has. rewrite (bool_decide_ext _ _ (H k)).
  by rewrite IH.
Qed.

(** Indices before the stretch play no part. *)
Lemma unselected_none sel k bs :
  (forall r, r ∈ sel -> r < k) -> unselected sel k bs = bs.
Proof.
  revert k. induction bs as [|b bs IH]; intros k Hk; simpl; [done|].
  unfold set_has. rewrite bool_decide_eq_false_2.
  - rewrite IH; [done|]. intros r Hr. apply Hk in Hr. lia.
  - intros Hin. apply Hk in Hin. lia.
Qed.

(** Removing the block at the highest selected index first. *)
Lemma unselected_delete i rest k bs :
  (forall r, r ∈ rest -> r < i) ->
  k <= i < k + Z.of_nat (length bs) ->
  unselected (i :: rest) k bs
  = unselected rest k (delete (Z.to_nat (i - k)) bs).
Proof.
  intros Hrest. revert k. induction bs as [|b bs IH]; intros k Hk; simpl in *.
  { lia. }
  unfold set_has. destruct (decide (k = i)) as [->|Hne].
  - rewrite bool_decide_eq_true_2 by (by left).
    replace (Z.to_nat (i - i)) with 0%nat by lia. simpl.
    rewrite !unselected_none; [done|done|].
    intros r [-> | Hr%Hrest]%elem_of_cons; lia.
  - assert (k ∈ i :: rest <-> k ∈ rest) as H.
    { rewrite elem_of_cons. split; [intros [?|?]; [lia|done]|by right]. }
    rewrite (bool_decide_ext _ _ H).
    replace (Z.to_nat (i - k)) with (S (Z.to_nat (i - (k + 1)))) by lia.
    simpl. fold (set_has k rest). rewrite IH by lia.
    by destruct (set_has k rest).
Qed.

Lemma unselected_nil k bs : unselected [] k bs = bs.
Proof.
  revert k. induction bs as [|b bs IH]; intros k; simpl; [done|].
  by rewrite IH.
Qed.

End Unselected.

Section DeleteEach.
Implicit Types (w : State) (ixs : list Z).

Lemma spliceRemove_in_range {A} i (l : list A) :
  0 <= i < Z.of_nat (length l) ->
  spliceRemove i l = delete (Z.to_nat i) l
  /\ length (spliceRemove i l) = (length l - 1)%nat.
Proof.
  intros H. unfold spliceRemove, spliceStart.
  destruct (Z.ltb_spec i 0); [lia|]. rewrite Z.min_l by lia.
  split; [done|]. rewrite length_delete; [done|].
  apply lookup_lt_is_Some. lia.
Qed.

Lemma descending_head i ixs r : descending (i :: ixs) -> r ∈ ixs -> r < i.
Proof.
  intros H Hr. apply StronglySorted_inv in H as [_ H].
  rewrite Forall_forall in H. by apply H.
Qed.

Lemma descending_tail i ixs : descending (i :: ixs) -> descending ixs.
Proof. intros H. by apply StronglySorted_inv in H as [H _]. Qed.

(** Fewer indices than blocks: the guard of the loop never holds back. *)
Lemma deleteEach_some ixs w :
  descending ixs ->
  (forall i, i ∈ ixs -> 0 <= i < Z.of_nat (length (blocks w))) ->
  (length ixs < length (blocks w))%nat ->
  deleteEach ixs w = Normal (with_blocks (unselected ixs 0 (blocks w)) w).
Proof.
  revert w. induction ixs as [|i ixs IH]; intros w Hd Hr Hlen.
  - simpl. rewrite unselected_nil. by destruct w.
  - simpl in Hlen. simpl deleteEach.
    destruct (Z.gtb_spec (Z.of_nat (length (blocks w))) 1); [|lia].
    assert (0 <= i < Z.of_nat (length (blocks w))) as Hi
      by (apply Hr; by left).
    destruct (spliceRemove_in_range i (blocks w) Hi) as [Hs Hl].
    rewrite IH; simpl blocks.
    + rewrite Hs. rewrite (unselected_delete i ixs 0 (blocks w)).
      * by rewrite Z.sub_0_r.
      * intros r Hin. by apply (descending_head i ixs).
      * lia.
    + by apply descending_tail in Hd.
    + intros r Hin. pose proof (descending_head i ixs r Hd Hin).
      assert (0 <= r < Z.of_nat (length (blocks w))) by (apply Hr; by right).
      rewrite Hl. lia.
    + rewrite Hl. lia.
Qed.

(** As many indices as blocks: the last block left is cleared. *)
Lemma deleteEach_all ixs w :
  descending ixs ->
  (forall i, i ∈ ixs -> 0 <= i < Z.of_nat (length (blocks w))) ->
  ixs <> [] -> length ixs = length (blocks w) ->
  deleteEach ixs w = Normal (with_blocks [mkBlock []] w).
Proof.
  revert w. induction ixs as [|i ixs IH]; intros w Hd Hr Hne Hlen; [done|].
  simpl in Hlen. simpl deleteEach.
  assert (0 <= i < Z.of_nat (length (blocks w))) as Hi by (apply Hr; by left).
  destruct (Z.gtb_spec (Z.of_nat (length (blocks w))) 1) as [Hgt|Hle].
  - destruct (spliceRemove_in_range i (blocks w) Hi) as [Hs Hl].
    rewrite IH; simpl blocks; [done|by apply descending_tail in Hd| | |].
    + intros r Hin. pose proof (descending_head i ixs r Hd Hin).
      assert (0 <= r < Z.of_nat (length (blocks w))) by (apply Hr; by right).
      rewrite Hl. lia.
    + destruct ixs; [simpl in Hlen; lia|done].
    + rewrite Hl. lia.
  - destruct (blocks w) as [|b bs] eqn:Eb; simpl in *; [lia|].
    destruct bs; simpl in *; [|lia]. destruct ixs; simpl in *; [|lia].
    done.
Qed.

(** Each selected index takes one block away. *)
Lemma unselected_length ixs (bs : list Block) :
  descending ixs ->
  (forall i, i ∈ ixs -> 0 <= i < Z.of_nat (length bs)) ->
  length (unselected ixs 0 bs) = (length bs - length ixs)%nat.
Proof.
  revert bs. induction ixs as [|i ixs IH]; intros bs Hd Hr.
  - rewrite unselected_nil. simpl. lia.
  - assert (0 <= i < Z.of_nat (length bs)) as Hi by (apply Hr; by left).
    rewrite (unselected_delete i ixs 0 bs);
      [|intros r Hin; by apply (descending_head i ixs)|lia].
    rewrite IH.
    + rewrite length_delete by (apply lookup_lt_is_Some; lia).
      simpl. lia.
    + by apply descending_tail in Hd.
    + intros r Hin. pose proof (descending_head i ixs r Hd Hin).
      assert (0 <= r < Z.of_nat (length bs)) by (apply Hr; by right).
      rewrite length_delete by (apply lookup_lt_is_Some; lia). lia.
Qed.

End DeleteEach.

(** X13. When the selection holds distinct indices of blocks,
    [deleteSelectedBlocks] leaves exactly the blocks that were not
    selected, in their order, and an empty selection; when every block was
    selected it leaves one empty block. *)
Theorem deleteSelectedBlocks_spec (w : State) :
  selectedBlocks w <> [] ->
  NoDup (selectedBlocks w) ->
  (forall i, i ∈ selectedBlocks w -> 0 <= i < Z.of_nat (length (blocks w))) ->
  exists w',
    deleteSelectedBlocks w = Normal w'
    /\ selectedBlocks w' = []
    /\ blocks w'
       = match unselected (selectedBlocks w) 0 (blocks w) with
         | [] => [mkBlock []]
         | kept => kept
         end.
Proof.
  intros Hne Hnd Hr. unfold deleteSelectedBlocks.
  destruct (selectedBlocks w) as [|s0 sel0] eqn:Es; [done|]. rewrite <- Es in *.
  set (ixs := sort_desc (selectedBlocks w)).
  assert (descending ixs) as Hd by (by apply sort_desc_descending).
  assert (forall i, i ∈ ixs -> 0 <= i < Z.of_nat (length (blocks w))) as Hr'.
  { intros i Hi. apply Hr. by apply sort_desc_elem. }
  assert (length ixs = length (selectedBlocks w)) as Hlen
    by apply sort_desc_length.
  assert (unselected (selectedBlocks w) 0 (blocks w)
          = unselected ixs 0 (blocks w)) as Hu.
  { apply unselected_ext. intros j. symmetry. apply sort_desc_elem. }
  assert (length ixs <= length (blocks w))%nat as Hle.
  { rewrite Hlen. clear -Hnd Hr.
    assert (selectedBlocks w ⊆ Z.of_nat <$> seq 0 (length (blocks w))) as Hsub.
    { intros i Hi. apply Hr in Hi. apply list_elem_of_fmap.
      exists (Z.to_nat i). split; [lia|]. apply elem_of_seq. lia. }
    pose proof (NoDup_submseteq _ _ Hnd Hsub) as Hm.
    apply submseteq_length in Hm.
    by rewrite length_fmap, length_seq in Hm. }
  pose proof (unselected_length ixs (blocks w) Hd Hr') as Hlu.
  destruct (decide (length ixs = length (blocks w))) as [Hall|Hsome].
  - rewrite (deleteEach_all ixs w Hd Hr'); [|by destruct ixs; rewrite Es in *|done].
    simpl. eexists. split; [reflexivity|].
    rewrite save_selectedBlocks, save_blocks. simpl. split; [done|].
    rewrite Hu. destruct (unselected ixs 0 (blocks w)); [done|].
    simpl in Hlu. lia.
  - rewrite (deleteEach_some ixs w Hd Hr') by lia.
    simpl. eexists. split; [reflexivity|].
    rewrite save_selectedBlocks, save_blocks. simpl. split; [done|].
    rewrite Hu. destruct (unselected ixs 0 (blocks w)); [|done].
    simpl in Hlu. lia.
Qed.


(** The first and the third of three blocks selected. *)
Lemma deleteSelectedBlocks_spec_witness :
  exists w',
    deleteSelectedBlocks
      (with_selectedBlocks [0; 2]
         (with_blocks (doc ["a"; "b"; "c"]%string) openedPage))
    = Normal w'
    /\ selectedBlocks w' = []
    /\ blocks w' = doc ["b"]%string.
Proof.
  apply (deleteSelectedBlocks_spec
           (with_selectedBlocks [0; 2]
              (with_blocks (doc ["a"; "b"; "c"]%string) openedPage))).
  - discriminate.
  - apply (bool_decide_unpack (NoDup [0; 2])). exact I.
  - intros i Hi. simpl in *.
    apply elem_of_cons in Hi as [-> | Hi]; [lia|].
    apply list_elem_of_singleton in Hi as ->. lia.
Defined.

(** ** What [trim] returns *)

Section Trimmed.
Implicit Types (s x p q : jsstring) (c : char).

Lemma trimStart_starts s : startsWithWhiteSpace (trimStart s) = false.
Proof.
  induction s as [|c s IH]; simpl; [done|].
  destruct (isWhiteSpace c) eqn:E; [done|]. simpl. exact E.
Qed.

Lemma trimStart_suffix s : exists p, s = p ++ trimStart s.
Proof.
  induction s as [|c s [p IH]]; simpl; [by exists []|].
  destruct (isWhiteSpace c); [|by exists []].
  exists (c :: p). simpl. by rewrite <- IH.
Qed.

Lemma trimEnd_prefix x : exists q, x = trimEnd x ++ q.
Proof.
  induction x as [|c x [q IH]] using rev_ind; [exists []; reflexivity|].
  rewrite trimEnd_snoc. destruct (isWhiteSpace c).
  - exists (q ++ [c]). by rewrite app_assoc, <- IH.
  - exists []. by rewrite app_nil_r.
Qed.

Lemma trimEnd_ends x : endsWithWhiteSpace (trimEnd x) = false.
Proof.
  induction x as [|c x IH] using rev_ind; [done|].
  rewrite trimEnd_snoc. destruct (isWhiteSpace c) eqn:E; [done|].
  unfold endsWithWhiteSpace. by rewrite last_snoc.
Qed.

Lemma trimEnd_starts x :
  startsWithWhiteSpace x = false -> startsWithWhiteSpace (trimEnd x) = false.
Proof.
  induction x as [|c x IH] using rev_ind; [done|].
  rewrite trimEnd_snoc. destruct (isWhiteSpace c); [|done].
  intros H. apply IH. by destruct x.
Qed.

Lemma hasDoubleNewline_cons c d s :
  hasDoubleNewline (c :: d :: s)
  = ((c =? LF) && (d =? LF))%N || hasDoubleNewline (d :: s).
Proof. done. Qed.

Lemma hasDoubleNewline_app p q :
  hasDoubleNewline (p ++ q) = false ->
  hasDoubleNewline p = false /\ hasDoubleNewline q = false.
Proof.
  induction p as [|c p IH]; [done|].
  change ((c :: p) ++ q) with (c :: (p ++ q)). intros H.
  pose proof (hasDoubleNewline_tail _ _ H) as Ht.
  destruct (IH Ht) as [Hp Hq]. split; [|done].
  destruct p as [|d p]; [done|].
  change (c :: (d :: p) ++ q) with (c :: d :: (p ++ q)) in H.
  rewrite hasDoubleNewline_cons in H. apply orb_false_iff in H as [H _].
  by rewrite hasDoubleNewline_cons, H, Hp.
Qed.

Lemma trim_no_double s :
  hasDoubleNewline s = false -> hasDoubleNewline (trim s) = false.
Proof.
  intros H. unfold trim.
  destruct (trimStart_suffix s) as [p Hp].
  destruct (trimEnd_prefix (trimStart s)) as [q Hq].
  rewrite Hp in H. apply hasDoubleNewline_app in H as [_ H].
  rewrite Hq in H. by apply hasDoubleNewline_app in H as [H _].
Qed.

(** [trim] returns a string without whitespace at either end, and puts no
    doubled newline in. *)
Lemma trim_safe s :
  hasDoubleNewline s = false -> safe (mkBlock (trim s)) = true.
Proof.
  intros H. unfold safe. simpl content. rewrite (trim_no_double s H).
  unfold trim. rewrite trimEnd_starts by apply trimStart_starts.
  by rewrite trimEnd_ends.
Qed.

End Trimmed.

(** ** The blocks [loadPage] builds *)

Section Normal.
Implicit Types (l s : jsstring) (ls lines blockLines : list jsstring)
  (acc d : list Block).

Lemma split_noLF s : Forall noLF (split s).
Proof.
  induction s as [|c s IH]; simpl.
  - repeat constructor. by intros ?%elem_of_nil.
  - destruct (N.eqb_spec c LF).
    + constructor; [|done]. by intros ?%elem_of_nil.
    + pose proof (split_not_nil s). destruct (split s) as [|l ls]; [done|].
      apply Forall_cons in IH as [Hl Hls]. constructor; [|done].
      unfold noLF. rewrite elem_of_cons. intros [?|?]; [congruence|done].
Qed.

Lemma noLF_no_double l : noLF l -> hasDoubleNewline l = false.
Proof.
  unfold noLF. induction l as [|c l IH]; [done|].
  intros [Hc Hl]%not_elem_of_cons. destruct l as [|d l]; [done|].
  rewrite hasDoubleNewline_cons, IH by done.
  destruct (N.eqb_spec c LF); [congruence|done].
Qed.

Lemma hasDoubleNewline_line l s :
  noLF l -> l <> [] -> head s <> Some LF -> hasDoubleNewline s = false ->
  hasDoubleNewline (l ++ LF :: s) = false.
Proof.
  unfold noLF. induction l as [|c l IH]; [done|].
  intros [Hc Hl]%not_elem_of_cons _ Hs Hd.
  assert ((c =? LF)%N = false) as Ec by (apply N.eqb_neq; congruence).
  destruct l as [|c' l].
  - change ([c] ++ LF :: s) with (c :: LF :: s).
    rewrite hasDoubleNewline_cons, Ec. destruct s as [|d s]; [done|].
    rewrite hasDoubleNewline_cons, Hd.
    destruct (N.eqb_spec d LF) as [->|_]; [by destruct Hs|].
    by rewrite !andb_false_r.
  - change ((c :: c' :: l) ++ LF :: s) with (c :: c' :: (l ++ LF :: s)).
    rewrite hasDoubleNewline_cons, Ec.
    change (c' :: (l ++ LF :: s)) with ((c' :: l) ++ LF :: s).
    by rewrite IH.
Qed.

(** The lines of a block, joined: no doubled newline, no newline first. *)
Lemma join_lines_no_double blockLines l :
  Forall hasText blockLines -> Forall noLF blockLines -> noLF l ->
  hasDoubleNewline (join [LF] (blockLines ++ [l])) = false
  /\ head (join [LF] (blockLines ++ [l])) <> Some LF.
Proof.
  intros Ht Hn Hl. induction blockLines as [|x ls IH]; simpl app.
  - simpl. split; [by apply noLF_no_double|].
    destruct l as [|c l]; [done|]. simpl. intros [= ->].
    apply Hl. by left.
  - apply Forall_cons in Ht as [Hx Ht]. apply Forall_cons in Hn as [Hnx Hn].
    destruct (IH Ht Hn) as [IH1 IH2].
    rewrite join_cons by (by destruct ls).
    change ([LF] ++ join [LF] (ls ++ [l])) with (LF :: join [LF] (ls ++ [l])).
    assert (x <> []) as Hne by (by destruct x).
    split; [by apply hasDoubleNewline_line|].
    destruct x as [|c x]; [done|]. simpl. intros [= ->].
    apply Hnx. by left.
Qed.

Lemma innerBlocksHaveText_all acc :
  Forall (fun b => hasText (content b)) acc -> innerBlocksHaveText acc = true.
Proof.
  induction 1 as [|b acc Hb _ IH]; [done|]. simpl.
  destruct acc; [done|]. unfold hasText in Hb. by rewrite Hb.
Qed.

Lemma innerBlocksHaveText_snoc acc b :
  Forall (fun b => hasText (content b)) acc ->
  innerBlocksHaveText (acc ++ [b]) = true.
Proof.
  induction 1 as [|a acc Ha _ IH]; [done|].
  change ((a :: acc) ++ [b]) with (a :: (acc ++ [b])). simpl.
  destruct (acc ++ [b]) eqn:E; [done|].
  unfold hasText in Ha. rewrite Ha. exact IH.
Qed.

Lemma groupLines_normal lines blockLines acc :
  Forall noLF lines ->
  Forall hasText blockLines -> Forall noLF blockLines ->
  Forall normalBlock acc ->
  Forall (fun b => safe b = true) (groupLines lines blockLines acc)
  /\ innerBlocksHaveText (groupLines lines blockLines acc) = true.
Proof.
  intros Hlines. revert blockLines acc.
  induction Hlines as [|line rest Hline Hrest IH];
    intros blockLines acc Ht Hn Hacc.
  - simpl. split.
    + eapply Forall_impl; [exact Hacc|]. by intros b [? _].
    + apply innerBlocksHaveText_all.
      eapply Forall_impl; [exact Hacc|]. by intros b [_ ?].
  - destruct (join_lines_no_double blockLines line Ht Hn Hline) as [Hd _].
    pose proof (trim_safe _ Hd) as Hsafe.
    destruct rest as [|line' rest].
    + rewrite groupLines_single. split.
      * apply Forall_app. split.
        -- eapply Forall_impl; [exact Hacc|]. by intros b [? _].
        -- by repeat constructor.
      * apply innerBlocksHaveText_snoc.
        eapply Forall_impl; [exact Hacc|]. by intros b [_ ?].
    + destruct (truthy line) eqn:Eline.
      * rewrite groupLines_text_more by done. apply IH; [| |done].
        -- apply Forall_app. split; [done|]. by repeat constructor.
        -- apply Forall_app. split; [done|]. by repeat constructor.
      * destruct line; [|done]. rewrite groupLines_blank_more.
        destruct (truthy (trim (join [LF] (blockLines ++ [[]])))) eqn:E.
        -- apply IH; [done..|].
           apply Forall_app. split; [done|]. by repeat constructor.
        -- by apply IH.
Qed.

End Normal.

Section Reload.
Implicit Types (d : list Block).

(** A serialized document whose blocks are safe and whose inner blocks
    have text loads as the same blocks. *)
Lemma deserialize_serialize_blocks d :
  d <> [] -> Forall (fun b => safe b = true) d ->
  innerBlocksHaveText d = true ->
  deserialize (serialize d) = d.
Proof.
  intros Hne Hsafe Hin. unfold deserialize.
  rewrite groupLines_serialize by done. simpl. by destruct d.
Qed.

Lemma deserialize_blocks_normal text :
  Forall (fun b => safe b = true) (deserialize text)
  /\ innerBlocksHaveText (deserialize text) = true.
Proof.
  unfold deserialize.
  destruct (groupLines_normal (split text) [] [] (split_noLF text))
    as [H1 H2]; [done..|].
  destruct (groupLines (split text) [] []); [|done].
  split; [by repeat constructor|done].
Qed.

Lemma serialize_snoc_split pre (a t : jsstring) :
  serialize (pre ++ [mkBlock (a ++ [LF; LF] ++ t ++ [LF; LF])])
  = serialize (pre ++ [mkBlock a; mkBlock t; mkBlock []]).
Proof.
  induction pre as [|b pre IH].
  - unfold serialize. simpl. by rewrite ?app_nil_r.
  - change ((b :: pre) ++ ?l) with (b :: (pre ++ l)).
    rewrite !serialize_cons by (by destruct pre). by rewrite IH.
Qed.

End Reload.

(** X14. The blocks [loadPage] builds from any text are never none; each
    has no whitespace at either end and no two consecutive newlines, and
    only the last one can be empty. *)
Theorem deserialize_normal (text : jsstring) :
  deserialize text <> []
  /\ Forall (fun b => safe b = true) (deserialize text)
  /\ innerBlocksHaveText (deserialize text) = true.
Proof.
  split; [|apply deserialize_blocks_normal].
  pose proof (deserialize_nonempty text) as H. intros E.
  rewrite E in H. simpl in H. lia.
Qed.

(** X15. What [getContent] and [save] write for a page that has just been
    loaded loads as the same blocks again: loading, saving and loading
    changes nothing after the first load. *)
Theorem load_save_load (page : Storage.Page) (w : State) :
  deserialize (getContent (loadPage page w)) = blocks (loadPage page w)
  /\ deserialize (serialize (deserialize (Storage.content page)))
     = deserialize (Storage.content page).
Proof.
  assert (deserialize (serialize (deserialize (Storage.content page)))
          = deserialize (Storage.content page)) as H; [|by split].
  destruct (deserialize_blocks_normal (Storage.content page)) as [H1 H2].
  apply deserialize_serialize_blocks; [|done..].
  pose proof (deserialize_nonempty (Storage.content page)) as H. intros E.
  rewrite E in H. simpl in H. lia.
Qed.

(** X16. A transcript inserted while no block is being edited is appended
    to the last block between blank lines; when the blocks are safe and
    have text and the trimmed transcript holds no two consecutive newlines,
    the content then written loads as the old blocks, the transcript as a
    block of its own and an empty block behind it. *)
Theorem insertTranscript_reloads_as_blocks (w : State) (pre : list Block)
    (a : Block) (currentTranscript : jsstring) :
  currentBlockIndex w < 0 ->
  blocks w = pre ++ [a] ->
  Forall (fun b => safe b = true) (pre ++ [a]) ->
  Forall (fun b => hasText (content b)) (pre ++ [a]) ->
  trim currentTranscript <> [] ->
  trim currentTranscript <> lit "(No speech detected)" ->
  hasDoubleNewline currentTranscript = false ->
  exists w',
    Voice.insertTranscript currentTranscript w = Normal w'
    /\ blocks w'
       = pre ++ [mkBlock (content a
                          ++ Voice.transcriptText (trim currentTranscript))]
    /\ deserialize (getContent w')
       = pre ++ [a; mkBlock (trim currentTranscript); mkBlock []].
Proof.
  intros Hcbi Hb Hsafe Htext Hne Hns Hd. destruct a as [ca].
  unfold Voice.insertTranscript.
  assert (truthy (trim currentTranscript) = true) as Et
    by (by destruct (trim currentTranscript)).
  rewrite Et. unfold JS.eqb.
  rewrite bool_decide_eq_false_2 by done. simpl andb. cbv iota.
  unfold insertAtCursor.
  destruct (Z.geb_spec (currentBlockIndex w) 0); [lia|].
  rewrite Hb, length_app. simpl length.
  destruct (Z.gtb_spec (Z.of_nat (length pre + 1)) 0); [|lia].
  eexists. split; [reflexivity|].
  assert (alter_Z (appendContent (Voice.transcriptText (trim currentTranscript)))
            (Z.of_nat (length pre + 1) - 1) (pre ++ [mkBlock ca])
          = pre ++ [mkBlock (ca
                      ++ Voice.transcriptText (trim currentTranscript))])
    as Ha.
  { replace (Z.of_nat (length pre + 1) - 1) with (Z.of_nat (length pre))
      by lia.
    exact (alter_Z_middle (appendContent _) pre [] (mkBlock ca)). }
  unfold getContent. rewrite debouncedSave_blocks. simpl blocks. rewrite Ha.
  split; [done|].
  unfold Voice.transcriptText. rewrite serialize_snoc_split.
  apply deserialize_serialize_blocks.
  - by destruct pre.
  - apply Forall_app in Hsafe as [Hpre Ha']. apply Forall_app. split; [done|].
    apply Forall_cons in Ha' as [Ha' _].
    repeat constructor; [done|].
    by apply trim_safe.
  - replace (pre ++ [mkBlock ca; mkBlock (trim currentTranscript);
                     mkBlock []])
      with ((pre ++ [mkBlock ca; mkBlock (trim currentTranscript)])
            ++ [mkBlock []])
      by (by rewrite <- app_assoc).
    apply innerBlocksHaveText_snoc.
    apply Forall_app in Htext as [Hpre Ha']. apply Forall_app. split; [done|].
    apply Forall_cons in Ha' as [Ha' _].
    by repeat constructor.
Qed.

(** The transcript [hello] after the block [a]. *)
Lemma insertTranscript_reloads_as_blocks_witness :
  exists w',
    Voice.insertTranscript (lit " hello ") (editing (-1) ["a"]%string)
    = Normal w'
    /\ blocks w'
       = [] ++ [mkBlock (lit "a" ++ Voice.transcriptText (trim (lit " hello ")))]
    /\ deserialize (getContent w')
       = [] ++ [mkBlock (lit "a"); mkBlock (trim (lit " hello ")); mkBlock []].
Proof.
  apply (insertTranscript_reloads_as_blocks (editing (-1) ["a"]%string) []
           (mkBlock (lit "a")) (lit " hello ")).
  - simpl. lia.
  - reflexivity.
  - by repeat constructor.
  - by repeat constructor.
  - discriminate.
  - discriminate.
  - reflexivity.
Defined.

(** ** What every handler keeps *)

Section Kept.

(** A condition on states that the steps of the persistence layer keep and
    that does not read the document: the handlers keep it. *)
Variable Q : State -> Prop.
Hypothesis Q_save : forall w, Q w -> Q (save w).
Hypothesis Q_debouncedSave : forall w, Q w -> Q (debouncedSave w).
Hypothesis Q_fire :
  forall w t h, Q w -> Q (with_now t (clearTimeout h (timers w)) w).
Hypothesis Q_now : forall w t, Q w -> Q (with_now t (timers w) w).
Hypothesis Q_blocks : forall w bs, Q w -> Q (with_blocks bs w).
Hypothesis Q_index : forall w i, Q w -> Q (with_currentBlockIndex i w).
Hypothesis Q_selection : forall w s, Q w -> Q (with_selectedBlocks s w).
Hypothesis Q_title : forall w t, Q w -> Q (with_titleInput t w).

Implicit Types (w : State).

Lemma kept_finishEditing w : Q w -> Q (finishEditing w).
Proof.
  intros H. unfold finishEditing. destruct (_ <? 0); [done|].
  by apply Q_save, Q_index.
Qed.

Lemma kept_editBlock i w : Q w -> Q (editBlock i w).
Proof.
  intros H%kept_finishEditing. unfold editBlock.
  destruct (_ || _); [done|]. by apply Q_index.
Qed.

Lemma kept_addBlock i c w : Q w -> Q (addBlock i c w).
Proof. intros H. by apply Q_debouncedSave, Q_blocks. Qed.

Lemma kept_deleteBlock i w : Q w -> Q (state_of (deleteBlock i w)).
Proof.
  intros H. unfold deleteBlock. destruct (_ <=? 1).
  - destruct (blocks w); [done|]. by apply Q_blocks.
  - by apply Q_debouncedSave, Q_blocks.
Qed.

Lemma kept_deleteEach indices w : Q w -> Q (state_of (deleteEach indices w)).
Proof.
  revert w. induction indices as [|i rest IH]; intros w H; simpl; [done|].
  destruct (_ >? 1); [by apply IH, Q_blocks|].
  destruct (blocks w); [done|]. by apply IH, Q_blocks.
Qed.

Lemma kept_deleteSelectedBlocks w :
  Q w -> Q (state_of (deleteSelectedBlocks w)).
Proof.
  intros H. unfold deleteSelectedBlocks.
  destruct (selectedBlocks w) eqn:E; [done|]. rewrite <- E.
  pose proof (kept_deleteEach (sort_desc (selectedBlocks w)) w H) as H'.
  destruct (deleteEach _ w); simpl in *; [|done].
  by apply Q_save, Q_selection.
Qed.

Lemma kept_insertAtCursor text w : Q w -> Q (state_of (insertAtCursor text w)).
Proof.
  intros H. unfold insertAtCursor. destruct (_ >=? 0).
  - destruct (nth_Z _ _); simpl; [|done].
    by apply Q_debouncedSave, kept_editBlock, kept_finishEditing, Q_blocks.
  - destruct (_ >? 0); simpl.
    + by apply Q_debouncedSave, Q_blocks.
    + by apply Q_debouncedSave, kept_addBlock.
Qed.

Lemma kept_onKeydown e i value sel w :
  Q w -> Q (state_of (onKeydown e i value sel w)).
Proof.
  intros H. unfold onKeydown.
  repeat match goal with
  | |- context [if ?b then _ else _] => destruct b
  end; simpl;
  try (by repeat first [ apply kept_editBlock | apply kept_addBlock
                       | apply kept_finishEditing | apply Q_blocks ]).
  pose proof (kept_deleteBlock i w H) as H'.
  destruct (deleteBlock i w); simpl in *; [|done].
  by apply kept_editBlock.
Qed.

Lemma kept_fireDue fuel t w : Q w -> Q (fireDue fuel t w).
Proof.
  revert w. induction fuel as [|fuel IH]; intros w H; simpl; [done|].
  destruct (earliest (timers w)); [|done].
  destruct (_ <=? t); [|done]. by apply IH, Q_save, Q_fire.
Qed.

Lemma kept_advance t w : Q w -> Q (advance t w).
Proof.
  intros H%(kept_fireDue (length (timers w)) t). unfold advance.
  by apply Q_now.
Qed.

Lemma kept_perform op w : Q w -> Q (state_of (perform op w)).
Proof.
  intros H. destruct op; simpl.
  - by apply kept_editBlock.
  - by apply kept_finishEditing.
  - by apply kept_onKeydown.
  - by apply Q_debouncedSave, Q_blocks.
  - by apply kept_addBlock.
  - by apply kept_deleteBlock.
  - by apply Q_selection.
  - by apply kept_deleteSelectedBlocks.
  - by apply kept_insertAtCursor.
  - by apply kept_advance.
Qed.

Lemma kept_loadPage page w : Q w -> Q (loadPage page w).
Proof. intros H. by apply Q_selection, Q_blocks, Q_title. Qed.

Lemma kept_clear w : Q w -> Q (clear w).
Proof. intros H. by apply Q_index, Q_blocks, Q_title. Qed.

(** The actions that leave [App.currentPageId] alone. *)
Lemma kept_act a w :
  Session.changesPage a = false -> Q w -> Q (state_of (Session.act a w)).
Proof.
  intros Ha H. destruct a; simpl; try done.
  - by apply kept_perform.
  - by apply Q_debouncedSave, Q_title.
  - unfold onTitleEnter. apply kept_editBlock.
    destruct (Nat.eqb _ 0); [by apply kept_addBlock|done].
  - by apply kept_editBlock, kept_addBlock.
  - unfold onBlurTimeout. destruct (_ =? _); [by apply kept_finishEditing|done].
  - by apply kept_insertAtCursor.
  - unfold Voice.insertTranscript. destruct (_ && _); [|done].
    by apply kept_insertAtCursor.
  - by apply Q_save, Q_blocks.
  - by apply Q_save, Q_blocks.
Qed.

(** All the actions, for a condition that does not read
    [App.currentPageId] either. *)
Lemma kept_act_any a w :
  (forall w p, Q w -> Q (with_currentPageId p w)) ->
  Q w -> Q (state_of (Session.act a w)).
Proof.
  intros Q_page H. destruct (Session.changesPage a) eqn:Ha;
    [|by apply kept_act].
  destruct a; try done; simpl.
  - unfold App.openPage.
    destruct (Storage.getPage _ _) as [[page| |]|]; [..|done];
      by apply kept_loadPage, Q_page.
  - by apply kept_clear, Q_page.
Qed.

End Kept.

(** ** Invariants of a whole session *)

Section SessionFacts.
Implicit Types (w : State).

Lemma replaceBlocks_nonempty text : (1 <= length (LLM.replaceBlocks text))%nat.
Proof.
  unfold LLM.replaceBlocks.
  destruct (LLM.replaceLoop (split text) [] []) as [acc cur].
  destruct (0 <? length cur)%nat.
  - destruct (Nat.eqb_spec (length (acc ++ [mkBlock (join [LF] cur)])) 0);
      rewrite ?length_app in *; simpl in *; lia.
  - destruct (Nat.eqb_spec (length acc) 0); simpl; lia.
Qed.

Lemma insertSummary_nonempty summary w : nonempty (LLM.insertSummary summary w).
Proof.
  unfold nonempty, LLM.insertSummary. rewrite save_blocks. simpl.
  destruct (blocks w); simpl; [lia|]. destruct (startsWith _ _); simpl; lia.
Qed.

(** The actions that leave [App.currentPageId] alone keep a document that
    has a block. *)
Lemma act_nonempty a w :
  Session.changesPage a = false ->
  nonempty w -> nonempty (state_of (Session.act a w)).
Proof.
  intros Ha H. destruct a; simpl; try done.
  - by apply perform_nonempty.
  - unfold nonempty, onTitleEnter. rewrite editBlock_blocks.
    destruct (Nat.eqb _ 0); [|done]. simpl. rewrite length_spliceInsert. lia.
  - unfold nonempty, onPlaceholderClick. rewrite editBlock_blocks. simpl.
    rewrite length_spliceInsert. lia.
  - unfold nonempty, onBlurTimeout. destruct (_ =? _); [|done].
    by rewrite finishEditing_blocks.
  - by apply insertAtCursor_nonempty.
  - unfold Voice.insertTranscript. destruct (_ && _); [|done].
    by apply insertAtCursor_nonempty.
  - apply insertSummary_nonempty.
  - unfold nonempty, LLM.replaceContent. rewrite save_blocks. simpl.
    apply replaceBlocks_nonempty.
Qed.

Lemma act_openNonempty a w :
  openNonempty w -> openNonempty (state_of (Session.act a w)).
Proof.
  intros H. destruct (Session.changesPage a) eqn:Ha.
  - destruct a; try done; simpl.
    + unfold App.openPage.
      destruct (Storage.getPage _ _) as [[page| |]|]; [..|done];
        right; apply loadPage_nonempty.
    + by left.
  - destruct H as [H|H].
    + left. revert H.
      apply (kept_act (fun w => currentPageId w = None)); try done.
      intros w' Hw'. unfold save. by rewrite Hw'.
    + right. by apply act_nonempty.
Qed.

Lemma save_onePending w : onePending w -> onePending (save w).
Proof.
  unfold onePending. by destruct (save_timers w) as (-> & -> & _).
Qed.

Lemma debouncedSave_onePending w : onePending w -> onePending (debouncedSave w).
Proof.
  intros [_ Htr].
  destruct (onInput_scheduled 0 [] (now w) w Htr eq_refl)
    as ((_ & h & Ht & Hs) & _).
  unfold onInput in Ht, Hs. simpl in Ht, Hs.
  unfold onePending. simpl. rewrite Ht. split; [simpl; lia|].
  intros tm ->%list_elem_of_singleton. exact Hs.
Qed.

Lemma fire_onePending w t h :
  onePending w -> onePending (with_now t (clearTimeout h (timers w)) w).
Proof.
  intros [Hlen Htr]. unfold onePending. simpl. split.
  - unfold clearTimeout.
    pose proof (length_filter (fun t => timer_id t <> h) (timers w)). lia.
  - intros tm Hin. by apply Htr, (clearTimeout_subseteq h).
Qed.

End SessionFacts.

(** X17. Through every session of actions -- the operations of the model,
    the title and placeholder handlers, the blur timer, inserted links,
    transcripts and summaries, replaced content, pages opened and closed --
    the document has a block whenever a page is open. *)
Theorem session_openNonempty (actions : list Session.Action) (w : State) :
  openNonempty w -> openNonempty (Session.session actions w).
Proof.
  revert w. induction actions as [|a actions IH]; intros w H; [done|].
  apply IH. by apply act_openNonempty.
Qed.

(** A session from the state in which the script leaves the objects. *)
Lemma session_openNonempty_witness :
  openNonempty
    (Session.session
       [Session.OpenPage (lit "id_1"); Session.Model (DeleteBlock 0);
        Session.ReplaceContent []; Session.ClosePage]
       (App.closePage openedPage)).
Proof.
  apply (session_openNonempty _ (App.closePage openedPage)). by left.
Defined.

(** X18. Through every such session at most one timer is pending, and it
    is the one [saveTimeout] holds: a save is never scheduled twice. *)
Theorem session_onePending (actions : list Session.Action) (w : State) :
  onePending w -> onePending (Session.session actions w).
Proof.
  revert w. induction actions as [|a actions IH]; intros w H; [done|].
  apply IH. revert H.
  apply (kept_act_any onePending); try done.
  - apply save_onePending.
  - apply debouncedSave_onePending.
  - intros w' t h. apply fire_onePending.
Qed.

(** Two keystrokes and an inserted link on the open page. *)
Lemma session_onePending_witness :
  onePending
    (Session.session
       [Session.Model (Input 0 (lit "a")); Session.Model (Input 0 (lit "ab"));
        Session.InsertLink (lit "Home")]
       openedPage).
Proof.
  apply (session_onePending _ openedPage).
  split; [simpl; lia|]. by intros tm ?%elem_of_nil.
Defined.

(** ** What [save] writes and where *)

Section Writes.
Implicit Types (w : State).

Lemma save_closed w : currentPageId w = None -> save w = w.
Proof. intros H. unfold save. by rewrite H. Qed.

Lemma fireDue_closed fuel t w :
  currentPageId w = None ->
  saved (fireDue fuel t w) = saved w /\ pages (fireDue fuel t w) = pages w.
Proof.
  revert w. induction fuel as [|fuel IH]; intros w H; simpl; [done|].
  destruct (earliest (timers w)) as [t0|]; [|done].
  destruct (_ <=? t); [|done].
  rewrite save_closed by done.
  by destruct (IH (with_now (Z.max (now w) (timer_due t0))
                     (clearTimeout (timer_id t0) (timers w)) w) H)
    as [-> ->].
Qed.

(** On a stored page, [save] writes under the id of the page only, and the
    page stays stored. *)
Lemma save_other_pages w pid q :
  currentPageId w = Some pid -> Storage.own pid (pages w) <> None ->
  q <> pid ->
  Storage.getPage q (pages (save w)) = Storage.getPage q (pages w).
Proof.
  intros Hc Hown Hq.
  destruct (Storage.own pid (pages w)) as [page|] eqn:E; [|done].
  apply getPage_PageObject in E.
  destruct (truthy pid) eqn:Ht.
  - rewrite (save_stored w pid page Hc Ht E). cbn [pages with_store].
    by apply getPage_own, own_replaceProperty_other.
  - unfold save. by rewrite Hc, Ht.
Qed.

Lemma save_stays_stored w pid :
  currentPageId w = Some pid -> Storage.own pid (pages w) <> None ->
  Storage.own pid (pages (save w)) <> None.
Proof.
  intros Hc Hown.
  destruct (Storage.own pid (pages w)) as [page|] eqn:E; [|done].
  pose proof E as E'. apply getPage_PageObject in E.
  destruct (truthy pid) eqn:Ht.
  - rewrite (save_stored w pid page Hc Ht E). cbn [pages with_store].
    rewrite (own_replaceProperty_same (Storage.mkPage pid _ _)); [done|].
    cbn [Storage.id]. by rewrite E'.
  - unfold save. rewrite Hc, Ht. cbn [negb]. by rewrite E'.
Qed.

Lemma save_currentPageId w : currentPageId (save w) = currentPageId w.
Proof. by destruct (save_frame w) as [-> | (? & ? & ? & ->)]. Qed.

Lemma fireDue_other_pages fuel t w pid q :
  currentPageId w = Some pid -> Storage.own pid (pages w) <> None ->
  q <> pid ->
  Storage.getPage q (pages (fireDue fuel t w)) = Storage.getPage q (pages w).
Proof.
  revert w. induction fuel as [|fuel IH]; intros w Hc Hown Hq; simpl; [done|].
  destruct (earliest (timers w)) as [tm|]; [|done].
  destruct (_ <=? t); [|done].
  set (w1 := with_now _ _ w).
  rewrite IH; [|by rewrite save_currentPageId|by apply save_stays_stored|done].
  by rewrite (save_other_pages w1 pid q).
Qed.

End Writes.

(** X19. [save] writes nothing when no page is open. When the open page is
    stored, it logs one write of that page with the title input as title,
    or [Untitled] for an empty one, and the serialized blocks as content;
    the store then holds that page under its id and every other page as
    before. *)
Theorem save_writes_current_page (w : State) :
  (currentPageId w = None -> save w = w)
  /\ forall pid page,
       currentPageId w = Some pid -> truthy pid = true ->
       Storage.getPage pid (pages w) = Some (Storage.PageObject page) ->
       let written :=
         Storage.mkPage pid
           (if truthy (titleInput w) then titleInput w else lit "Untitled")
           (serialize (blocks w)) in
       saved (save w) = saved w ++ [written]
       /\ Storage.getPage pid (pages (save w))
          = Some (Storage.PageObject written)
       /\ forall q, q <> pid ->
            Storage.getPage q (pages (save w)) = Storage.getPage q (pages w).
Proof.
  split; [apply save_closed|].
  intros pid page Hc Ht Hp written.
  pose proof Hp as Hown. apply getPage_PageObject in Hown.
  split; [|split].
  - by rewrite (save_stored w pid page Hc Ht Hp).
  - rewrite (save_stored w pid page Hc Ht Hp). cbn [pages with_store].
    apply getPage_PageObject, (own_replaceProperty_same written).
    change (Storage.own pid (pages w) <> None). by rewrite Hown.
  - intros q Hq. apply (save_other_pages w pid); [done| |done].
    by rewrite Hown.
Qed.

(** The open page with an empty title input. *)
Lemma save_writes_current_page_witness :
  saved (save (with_titleInput [] openedPage))
  = saved (with_titleInput [] openedPage)
    ++ [Storage.mkPage (lit "id_1") (lit "Untitled") (lit "")].
Proof.
  destruct (save_writes_current_page (with_titleInput [] openedPage))
    as [_ H].
  by apply (H (lit "id_1") (Storage.mkPage (lit "id_1") (lit "Notes") (lit ""))).
Defined.

(** X20. A keystroke that is followed by [closePage] is never written:
    however long one waits, the log of writes and the store stay as they
    were before the keystroke. *)
Theorem closePage_drops_pending_write (w : State) (index : Z)
    (value : jsstring) (T : Z) :
  saved (advance T (App.closePage (onInput index value w))) = saved w
  /\ pages (advance T (App.closePage (onInput index value w))) = pages w.
Proof.
  unfold advance. simpl saved. simpl pages.
  by apply (fireDue_closed _ T (App.closePage (onInput index value w))).
Qed.

(** X21. A keystroke that is followed by [openPage] for another stored page
    never reaches the page it was typed in: whatever is written later goes
    to the page just opened, and every other stored page stays as it
    was. *)
Theorem openPage_redirects_pending_write (w : State) (index : Z)
    (value : jsstring) (pageId : jsstring) (T : Z) :
  (exists page,
     Storage.getPage pageId (pages w) = Some (Storage.PageObject page)) ->
  forall q, q <> pageId ->
    Storage.getPage q
      (pages (advance T (App.openPage pageId (onInput index value w))))
    = Storage.getPage q (pages w).
Proof.
  intros [page Hp] q Hq. unfold advance. simpl pages.
  assert (App.openPage pageId (onInput index value w)
          = loadPage page
              (with_currentPageId (Some pageId) (onInput index value w)))
    as ->.
  { unfold App.openPage. cbn [pages onInput debouncedSave with_timers
      with_blocks]. by rewrite Hp. }
  rewrite (fireDue_other_pages _ T _ pageId q); [done..| |done].
  change (Storage.own pageId (pages w) <> None).
  apply getPage_PageObject in Hp. by rewrite Hp.
Qed.

(** A keystroke on the open page, then [openPage] for the page [foo]. *)
Lemma openPage_redirects_pending_write_witness :
  Storage.getPage (lit "id_1")
    (pages (advance 1000
              (App.openPage (lit "id_2")
                 (onInput 0 (lit "typed")
                    (with_store
                       [Storage.mkPage (lit "id_1") (lit "Notes") (lit "");
                        Storage.mkPage (lit "id_2") (lit "foo") (lit "")]
                       [] openedPage)))))
  = Some (Storage.PageObject
            (Storage.mkPage (lit "id_1") (lit "Notes") (lit ""))).
Proof.
  apply (openPage_redirects_pending_write
           (with_store
              [Storage.mkPage (lit "id_1") (lit "Notes") (lit "");
               Storage.mkPage (lit "id_2") (lit "foo") (lit "")]
              [] openedPage)
           0 (lit "typed") (lit "id_2") 1000).
  - by exists (Storage.mkPage (lit "id_2") (lit "foo") (lit "")).
  - discriminate.
Defined.

(** X22. [finishEditing] does not cancel the write that a keystroke has
    scheduled: on an open page, a keystroke followed by the end of the
    edit writes the same content twice, once at once and once when the
    timer is due. *)
Theorem finishEditing_keeps_pending_write (w : State) (t T : Z) :
  scheduled t w -> pageOpen w -> 0 <= currentBlockIndex w -> t + 500 <= T ->
  exists p1 p2,
    saved (advance T (finishEditing w)) = saved w ++ [p1; p2]
    /\ Storage.content p1 = serialize (blocks w)
    /\ Storage.content p2 = serialize (blocks w).
Proof.
  intros Hs Hop Hi HT.
  unfold finishEditing. destruct (Z.ltb_spec (currentBlockIndex w) 0); [lia|].
  set (w1 := with_currentBlockIndex (-1) w).
  assert (pageOpen w1) as Hop1 by done.
  destruct (save_writes_once w1 Hop1) as (p1 & Hp1 & Hc1).
  assert (scheduled t (save w1)) as Hs1.
  { destruct Hs as (Hn & h & Ht & Hst).
    destruct (save_timers w1) as (Et & Es & En).
    split; [by rewrite En|]. exists h. by rewrite Et, Es. }
  rewrite (scheduled_advance_after t T (save w1) Hs1 HT).
  cbn [saved with_now].
  assert (pageOpen (with_now (t + 500) [] (save w1))) as Hop2
    by (by apply (save_pageOpen w1)).
  destruct (save_writes_once _ Hop2) as (p2 & Hp2 & Hc2).
  exists p1, p2. rewrite Hp2. cbn [saved with_now]. rewrite Hp1.
  rewrite <- app_assoc. split; [done|]. split; [done|].
  rewrite Hc2. cbn [blocks with_now]. by rewrite save_blocks.
Qed.

(** One keystroke on the open page, the edit ended, a second passed. *)
Lemma finishEditing_keeps_pending_write_witness :
  exists p1 p2,
    saved (advance 1000 (finishEditing (onInput 0 (lit "a") openedPage)))
    = saved (onInput 0 (lit "a") openedPage) ++ [p1; p2]
    /\ Storage.content p1 = serialize (blocks (onInput 0 (lit "a") openedPage))
    /\ Storage.content p2 = serialize (blocks (onInput 0 (lit "a") openedPage)).
Proof.
  apply (finishEditing_keeps_pending_write (onInput 0 (lit "a") openedPage)
           0 1000).
  - split; [done|]. by exists 1%positive.
  - exists (lit "id_1"). eexists. repeat split.
  - simpl. lia.
  - lia.
Defined.

(** ** Summaries and replaced content *)

(** X23. [insertSummary] puts its summary block first and never stacks
    summaries: a summary already there is replaced, so that two calls
    leave the blocks that the second call alone would leave. *)
Theorem insertSummary_replaces_summary (s1 s2 : jsstring) (w : State) :
  blocks (LLM.insertSummary s2 (LLM.insertSummary s1 w))
  = blocks (LLM.insertSummary s2 w)
  /\ head (blocks (LLM.insertSummary s2 w))
     = Some (mkBlock (LLM.summaryBlock s2)).
Proof.
  unfold LLM.insertSummary. rewrite !save_blocks. simpl blocks.
  rewrite ?save_blocks. simpl blocks.
  assert (forall s, startsWith (LLM.summaryBlock s) LLM.summaryPrefix = true)
    as Hstart by (intros s; apply startsWith_app).
  destruct (blocks w) as [|b rest].
  - simpl content. by rewrite Hstart.
  - destruct (startsWith (content b) LLM.summaryPrefix) eqn:E;
      simpl content; by rewrite Hstart.
Qed.

(** X24. The click on the placeholder puts an empty block behind the last
    block and edits it; Enter in the title edits the first block, and
    gives an editor without blocks one empty block first. *)
Theorem placeholder_and_title_enter (w : State) :
  (blocks (onPlaceholderClick w) = blocks w ++ [mkBlock []]
   /\ currentBlockIndex (onPlaceholderClick w)
      = Z.of_nat (length (blocks w)))
  /\ (blocks w <> [] ->
      blocks (onTitleEnter w) = blocks w
      /\ currentBlockIndex (onTitleEnter w) = 0)
  /\ (blocks w = [] ->
      blocks (onTitleEnter w) = [mkBlock []]
      /\ currentBlockIndex (onTitleEnter w) = 0).
Proof.
  assert (forall (l : list Block) x,
            spliceInsert (Z.of_nat (length l)) x l = l ++ [x]) as Hend.
  { intros l x. unfold spliceInsert, spliceStart.
    destruct (Z.ltb_spec (Z.of_nat (length l)) 0); [lia|].
    rewrite Z.min_l, Nat2Z.id by lia.
    by rewrite take_ge, drop_ge by lia. }
  split; [|split].
  - unfold onPlaceholderClick.
    set (w1 := addBlock (Z.of_nat (length (blocks w))) [] w).
    assert (blocks w1 = blocks w ++ [mkBlock []]) as Hb by apply Hend.
    rewrite editBlock_blocks. split; [done|].
    rewrite editBlock_in_range; rewrite Hb, length_app; simpl; lia.
  - intros Hne. unfold onTitleEnter.
    destruct (Nat.eqb_spec (length (blocks w)) 0) as [E|E].
    { by destruct (blocks w). }
    rewrite editBlock_blocks. split; [done|].
    apply editBlock_in_range. lia.
  - intros E. unfold onTitleEnter. rewrite E. simpl Nat.eqb. cbv iota.
    rewrite editBlock_blocks. simpl blocks. rewrite E.
    split; [done|]. apply editBlock_in_range. simpl blocks. rewrite E.
    simpl. lia.
Qed.

(** The title's Enter key after [clear]. *)
Lemma placeholder_and_title_enter_witness :
  blocks (onTitleEnter (clear openedPage)) = [mkBlock []]
  /\ currentBlockIndex (onTitleEnter (clear openedPage)) = 0.
Proof.
  by apply (placeholder_and_title_enter (clear openedPage)).
Defined.

(** ** The blocks of replaced content *)

Section Replaced.
Implicit Types (l : jsstring) (ls lines cur : list jsstring)
  (acc : list Block).

Lemma split_line l : noLF l -> split l = [l].
Proof.
  unfold noLF. induction l as [|c l IH]; [done|].
  intros [Hc Hl]%not_elem_of_cons. simpl.
  destruct (N.eqb_spec c LF); [congruence|]. by rewrite IH.
Qed.

Lemma split_join ls : ls <> [] -> Forall noLF ls -> split (join [LF] ls) = ls.
Proof.
  intros Hne Hls. induction Hls as [|l ls Hl Hls IH]; [done|].
  destruct ls as [|l' ls]; [by apply split_line|].
  rewrite join_cons by done.
  change ([LF] ++ join [LF] (l' :: ls)) with (LF :: join [LF] (l' :: ls)).
  rewrite split_app_LF, split_line, IH by done. done.
Qed.

Lemma replaceLoop_blocks lines acc cur :
  Forall noLF lines ->
  Forall LLM.linesNotBlank acc ->
  Forall (fun l => LLM.notBlank l = true) cur -> Forall noLF cur ->
  Forall LLM.linesNotBlank (LLM.replaceLoop lines acc cur).1
  /\ Forall (fun l => LLM.notBlank l = true) (LLM.replaceLoop lines acc cur).2
  /\ Forall noLF (LLM.replaceLoop lines acc cur).2.
Proof.
  intros Hlines. revert acc cur.
  induction Hlines as [|line rest Hline _ IH]; intros acc cur Hacc Hnb Hn;
    simpl; [done|].
  destruct (LLM.notBlank line) eqn:E; simpl.
  - apply IH; [done| |].
    + apply Forall_app. split; [done|]. by repeat constructor.
    + apply Forall_app. split; [done|]. by repeat constructor.
  - destruct (Nat.ltb_spec 0 (length cur)); [|by apply IH].
    apply IH; [|done..].
    apply Forall_app. split; [done|]. repeat constructor.
    unfold LLM.linesNotBlank. simpl.
    rewrite split_join; [done| |done]. destruct cur; simpl in *; [lia|done].
Qed.

Lemma replaceLoop_grows lines acc cur :
  acc <> [] \/ cur <> [] ->
  (LLM.replaceLoop lines acc cur).1 <> []
  \/ (LLM.replaceLoop lines acc cur).2 <> [].
Proof.
  revert acc cur. induction lines as [|line rest IH]; intros acc cur H;
    simpl; [done|].
  destruct (LLM.notBlank line); simpl.
  - apply IH. right. by destruct cur.
  - destruct (0 <? length cur)%nat; [|by apply IH].
    apply IH. left. by destruct acc.
Qed.

Lemma replaceLoop_some_text lines acc cur :
  Exists (fun l => LLM.notBlank l = true) lines ->
  (LLM.replaceLoop lines acc cur).1 <> []
  \/ (LLM.replaceLoop lines acc cur).2 <> [].
Proof.
  intros H. revert acc cur.
  induction H as [line rest Hl|line rest _ IH]; intros acc cur; simpl.
  - rewrite Hl. simpl. apply replaceLoop_grows. right. by destruct cur.
  - destruct (LLM.notBlank line); simpl; [apply IH|].
    destruct (0 <? length cur)%nat; apply IH.
Qed.

Lemma replaceLoop_all_blank lines :
  Forall (fun l => LLM.notBlank l = false) lines ->
  LLM.replaceLoop lines [] [] = ([], []).
Proof.
  induction 1 as [|line rest Hl _ IH]; simpl; [done|]. by rewrite Hl.
Qed.

End Replaced.

(** X25. [replaceContent] always leaves a block. When the new content has a
    line with text, every block is made of such lines only, so that no
    block holds a blank line; when it has none, the content becomes the
    one block as it is. *)
Theorem replaceBlocks_spec (newContent : jsstring) :
  LLM.replaceBlocks newContent <> []
  /\ (Exists (fun l => LLM.notBlank l = true) (split newContent) ->
      Forall LLM.linesNotBlank (LLM.replaceBlocks newContent))
  /\ (Forall (fun l => LLM.notBlank l = false) (split newContent) ->
      LLM.replaceBlocks newContent = [mkBlock newContent]).
Proof.
  split; [|split].
  - pose proof (replaceBlocks_nonempty newContent) as H. intros E.
    rewrite E in H. simpl in H. lia.
  - intros Hex. unfold LLM.replaceBlocks.
    pose proof (replaceLoop_some_text (split newContent) [] [] Hex) as Hne.
    destruct (replaceLoop_blocks (split newContent) [] []
                (split_noLF newContent)) as (H1 & H2 & H3); [done..|].
    destruct (LLM.replaceLoop (split newContent) [] []) as [acc cur].
    simpl in *.
    destruct (Nat.ltb_spec 0 (length cur)).
    + destruct (Nat.eqb_spec (length (acc ++ [mkBlock (join [LF] cur)])) 0)
        as [E|_].
      { rewrite length_app in E. simpl in E. lia. }
      apply Forall_app. split; [done|]. repeat constructor.
      unfold LLM.linesNotBlank. simpl.
      rewrite split_join; [done| |done]. destruct cur; simpl in *; [lia|done].
    + destruct (Nat.eqb_spec (length acc) 0) as [E|_]; [|done].
      destruct acc; [|done]. destruct cur; [|simpl in *; lia].
      by destruct Hne.
  - intros Hall. unfold LLM.replaceBlocks.
    by rewrite replaceLoop_all_blank.
Qed.

(** Two paragraphs with two blank lines between them. *)
Lemma replaceBlocks_spec_witness :
  Forall LLM.linesNotBlank (LLM.replaceBlocks (lit "a" ++ [LF; LF; LF] ++ lit "b")).
Proof.
  apply (replaceBlocks_spec (lit "a" ++ [LF; LF; LF] ++ lit "b")).
  by left.
Defined.
